(** * The resource object model and its property conversion engine

    A shallow embedding of [pkg/resource/resource_object.go] (live resource
    objects, capture of a live object into a [PropertyMap], hydration of a
    [PropertyMap] onto a live object, identity assignment and [Update]) and of
    the validation performed by [cmd/stack_import.go].

    Go panics raised by the [contract] package are results of type [result];
    mutation of the receiver is explicit state passing: a method that mutates
    [r] returns the new [r].

    A live object graph is kept as a tree of objects.  Capture only reads the
    graph and builds a property map that holds no live object, and it does
    not descend into a referenced resource, of which it reads the ID slot
    only; the writes of [SetID] and of hydration go to the property slots of
    the one object they are given, and the objects they store are new.  The
    one comparison of object identities, between the source of a computed
    value and the resource being captured, is kept through the address of
    the resource's live object.  A reference to a resource is thus a copy of
    what the resource held, which a later write to the resource does not
    reach: the properties that compare the capture before and after a write
    are stated for the live graphs in which no reference met by capture can
    be to the object written ([propertiesAssigned] below). *)

From Stdlib Require Import ZArith Ascii.
From stdpp Require Import gmap strings list fin_maps sorting.

Set Warnings "-register-all".

(** ** Contract failures *)

(** A call either returns or stops at a failed [contract] assertion. *)
Inductive result (A : Type) : Type :=
| OK (a : A)
| InvariantViolation.
Arguments OK {A} a.
Arguments InvariantViolation {A}.

#[global] Instance result_ret : MRet result := @OK.
#[global] Instance result_bind : MBind result := λ A B f m,
  match m with OK a => f a | InvariantViolation => InvariantViolation end.
#[global] Instance result_fmap : FMap result := λ A B f m,
  match m with OK a => OK (f a) | InvariantViolation => InvariantViolation end.

Definition is_OK {A} (m : result A) : Prop := ∃ a, m = OK a.

Module contract.
(** [contract.Assert], [contract.Assertf], [contract.Require] and
    [contract.Requiref] all stop the call when the condition is false; they
    differ in the message only. *)
Definition Assert (cond : bool) : result unit :=
  if cond then OK () else InvariantViolation.
End contract.

(** ** Type symbols *)

Module types.
(** The primitive types [types.Null], [types.Bool], ... *)
Inductive Primitive := Null | Bool | Number | String | Object | Dynamic.
End types.

Module symbols.
(** Modelled from the spec: the package [compiler/symbols] is not among the
    sources.  The kinds are those that [copyObjectProperty] dispatches on,
    and [PointerType] stands for the kinds it does not name. *)
Inductive Type_ :=
| PrimitiveType (p : types.Primitive)
| ArrayType (Element : Type_)
| MapType (Key Element : Type_)
| Class (Name : string) (Base : option Type_)
| ComputedType (Element : Type_)
| FunctionType (Parameters : list Type_) (Return : option Type_)
| PointerType (Element : Type_).

(** [t.Computed()] *)
Definition Computed (t : Type_) : bool :=
  match t with ComputedType _ => true | _ => false end.

Definition primitiveName (p : types.Primitive) : string :=
  match p with
  | types.Null => "null" | types.Bool => "bool" | types.Number => "number"
  | types.String => "string" | types.Object => "object"
  | types.Dynamic => "dynamic"
  end.

(** [t.TypeToken()]; only the token of a class matters below, since a
    resource object is an instance of a class. *)
Fixpoint TypeToken (t : Type_) : string :=
  match t with
  | PrimitiveType p => primitiveName p
  | ArrayType e => "[]" +:+ TypeToken e
  | MapType k e => "map[" +:+ TypeToken k +:+ "]" +:+ TypeToken e
  | Class n _ => n
  | ComputedType e => "computed<" +:+ TypeToken e +:+ ">"
  | FunctionType _ _ => "()"
  | PointerType e => "*" +:+ TypeToken e
  end.
End symbols.

Coercion symbols.PrimitiveType : types.Primitive >-> symbols.Type_.

Module predef.
(** The token of the standard resource base class. *)
Definition ResourceClass : string := "lumi:resource:Resource".

(** Modelled from the spec: [predef.IsResourceType] is not among the
    sources.  A resource type is the standard resource class or a class
    deriving from it. *)
Fixpoint IsResourceType (t : symbols.Type_) : bool :=
  match t with
  | symbols.Class n base =>
      if decide (n = ResourceClass) then true
      else match base with Some b => IsResourceType b | None => false end
  | _ => false
  end.
End predef.

(** ** Runtime objects *)

(** The identity of a heap-allocated runtime object: what [==] on two
    [*rt.Object] compares. *)
Definition addr := positive.

(** A [float64] is carried as its IEEE-754 bit pattern; the engine only moves
    numbers around, and the pattern of [0] is [0]. *)
Definition float64 := Z.

Module rt.
(** Modelled from the spec: the package [eval/rt] is not among the sources.
    A live object has a type, an optional constant value and a property map
    from keys to objects.  A property slot ([*rt.Pointer]) is named by its
    key and is writable; a slot never holds a nil object, and the sources of
    a computed value are live objects, given by their addresses, never
    nil. *)
Inductive Value (O : Type) :=
| NoValue
| BoolV (b : bool)
| NumberV (n : float64)
| StringV (s : string)
| ArrayV (elems : list O)
| ComputedV (Expr : bool) (Sources : list addr).
Arguments NoValue {O}.
Arguments BoolV {O} b.
Arguments NumberV {O} n.
Arguments StringV {O} s.
Arguments ArrayV {O} elems.
Arguments ComputedV {O} Expr Sources.

Inductive Object := MkObject {
  t : symbols.Type_;
  value : Value Object;
  properties : gmap string Object
}.

(** [rt.ComputedValue] *)
Record ComputedValue_ := { Expr : bool; Sources : list addr }.

Definition Type_ (o : Object) : symbols.Type_ := t o.

Definition IsNull (o : Object) : bool :=
  match t o with symbols.PrimitiveType types.Null => true | _ => false end.
Definition IsString (o : Object) : bool :=
  match t o with symbols.PrimitiveType types.String => true | _ => false end.
Definition IsComputed (o : Object) : bool := symbols.Computed (t o).

(** The value accessors assert that the constant has the expected shape. *)
Definition BoolValue (o : Object) : result bool :=
  match value o with BoolV b => OK b | _ => InvariantViolation end.
Definition NumberValue (o : Object) : result float64 :=
  match value o with NumberV n => OK n | _ => InvariantViolation end.
Definition StringValue (o : Object) : result string :=
  match value o with StringV s => OK s | _ => InvariantViolation end.
Definition ArrayValue (o : Object) : result (list Object) :=
  match value o with ArrayV es => OK es | _ => InvariantViolation end.
Definition ComputedValue (o : Object) : result ComputedValue_ :=
  match value o with
  | ComputedV e srcs => OK {| Expr := e; Sources := srcs |}
  | _ => InvariantViolation
  end.

(** [rt.Null], [rt.Bools], [rt.NewNumberObject], [rt.NewStringObject],
    [rt.NewArrayObject] and [rt.NewObject] (with no properties). *)
Definition Null : Object := MkObject types.Null NoValue ∅.
Definition Bools (b : bool) : Object := MkObject types.Bool (BoolV b) ∅.
Definition NewNumberObject (n : float64) : Object :=
  MkObject types.Number (NumberV n) ∅.
Definition NewStringObject (s : string) : Object :=
  MkObject types.String (StringV s) ∅.
Definition NewArrayObject (elem : symbols.Type_) (arr : list Object) : Object :=
  MkObject (symbols.ArrayType elem) (ArrayV arr) ∅.
Definition NewObject (t : symbols.Type_) : Object := MkObject t NoValue ∅.
Definition NewComputedObject (elem : symbols.Type_) (expr : bool)
    (sources : list addr) : Object :=
  MkObject (symbols.ComputedType elem) (ComputedV expr sources) ∅.

(** [obj.GetPropertyAddr(key, false, false)]: the slot if it exists, read
    through [Obj()]. *)
Definition GetProperty (o : Object) (key : string) : option Object :=
  properties o !! key.

(** [obj.GetPropertyAddr(key, true, true)]: a missing slot is created, and
    a created slot holds null. *)
Definition InitProperty (o : Object) (key : string) : Object :=
  match properties o !! key with
  | Some _ => o
  | None => MkObject (t o) (value o) (<[key := Null]> (properties o))
  end.

(** [prop.Obj()] for a slot obtained with [InitProperty]. *)
Definition PropertyObj (o : Object) (key : string) : Object :=
  default Null (properties o !! key).

(** [prop.Set(val)] *)
Definition SetProperty (o : Object) (key : string) (val : Object) : Object :=
  MkObject (t o) (value o) (<[key := val]> (properties o)).

Definition string_le (a b : string) : Prop := String.leb a b = true.
#[global] Instance string_le_dec : RelDecision string_le.
Proof. intros a b. unfold string_le. apply _. Defined.

(** [props.Stable()]: the keys in sorted order. *)
Definition Stable {A} (props : gmap string A) : list string :=
  merge_sort string_le (map_to_list props).*1.
End rt.


(** ** Property values *)

(** Modelled from the spec: the file declaring [PropertyValue] is not among
    the sources.  The spec gives the closed variant: null, bool, number,
    string, array, object, computed and output.  The constructors carry the
    names of the Go constructor functions. *)
Inductive PropertyValue :=
| NewNullProperty
| NewBoolProperty (v : bool)
| NewNumberProperty (v : float64)
| NewStringProperty (v : string)
| NewArrayProperty (v : list PropertyValue)
| NewObjectProperty (v : gmap string PropertyValue)
| MakeComputed (v : PropertyValue)
| MakeOutput (v : PropertyValue).

(** A Go [PropertyMap] is [map[PropertyKey]PropertyValue]. *)
Abbreviation PropertyMap := (gmap string PropertyValue).

(** [PropertyValue{}], the zero value of the Go struct: its payload is nil,
    which is what [NewNullProperty()] builds. *)
Definition zeroPropertyValue : PropertyValue := NewNullProperty.

(** ** Resource objects and state snapshots *)

Abbreviation URN_t := string (only parsing).
Abbreviation ID_t := string (only parsing).

(** Modelled from the spec: the constant [IDProperty] is declared in a file
    that is not among the sources; it is the key of the live property that
    holds the provider-assigned identifier. *)
Definition IDProperty : string := "id".

(** [resource.Object].  The field [obj *rt.Object] is kept as the address of
    the live object ([ptr]) and the object found there ([obj]). *)
Record Object := {
  urn : URN_t;
  ptr : addr;
  obj : rt.Object
}.

(** Modelled from the spec: [State] and [NewState] are declared in a file
    that is not among the sources: a record of type, URN, ID, inputs and
    outputs.  The outputs are the map that the caller of [Update] supplies,
    which may be nil ([None]). *)
Record State := NewState {
  st_type : string;
  st_urn : URN_t;
  st_id : ID_t;
  st_inputs : PropertyMap;
  st_outputs : option PropertyMap
}.

(** Modelled from the spec: [HasURN] is declared in a file that is not among
    the sources; a URN is set when it is not empty. *)
Definition HasURN (r : Object) : bool := bool_decide (urn r ≠ "").

(** [IsResourceObject]; the object is not nil. *)
Definition IsResourceObject (obj : rt.Object) : bool :=
  predef.IsResourceType (rt.Type_ obj).

(** [NewObject], for the live object [obj] found at the address [a]. *)
Definition NewObject (a : addr) (obj : rt.Object) : result Object :=
  _ ← contract.Assert (IsResourceObject obj);
  OK {| urn := ""; ptr := a; obj := obj |}.

Definition URN (r : Object) : URN_t := urn r.
Definition Obj (r : Object) : rt.Object := obj r.
Definition Type_ (r : Object) : string := symbols.TypeToken (rt.Type_ (obj r)).

(** [getIDObject] *)
Definition getIDObject (obj : rt.Object) : result (option rt.Object) :=
  _ ← contract.Assert (IsResourceObject obj);
  match rt.GetProperty obj IDProperty with
  | Some id =>
      _ ← contract.Assert (rt.IsString id || rt.IsComputed id);
      OK (Some id)
  | None => OK None
  end.

(** the method [ID] of [Object] *)
Definition ID (r : Object) : result ID_t :=
  idobj ← getIDObject (Obj r);
  match idobj with
  | None => InvariantViolation
  | Some idobj =>
      _ ← contract.Assert (rt.IsString idobj);
      rt.StringValue idobj
  end.

(** the method [HasID] of [Object] *)
Definition HasID (r : Object) : result bool :=
  idobj ← getIDObject (Obj r);
  OK (match idobj with
      | None => false
      | Some idobj => negb (rt.IsNull idobj)
      end).

(** the method [SetID] of [Object] *)
Definition SetID (r : Object) (id : ID_t) : result Object :=
  let o := rt.InitProperty (obj r) IDProperty in
  let prop := rt.PropertyObj o IDProperty in
  _ ← contract.Assert (rt.IsNull prop || rt.IsComputed prop);
  OK {| urn := urn r; ptr := ptr r;
        obj := rt.SetProperty o IDProperty (rt.NewStringObject id) |}.

(** the method [SetURN] of [Object] *)
Definition SetURN (r : Object) (m : URN_t) : result Object :=
  _ ← contract.Assert (negb (HasURN r));
  OK {| urn := m; ptr := ptr r; obj := obj r |}.

(** ** Capture: live object to property map *)

(** The body of the loop of [copyObjectProperties]: [get k] is the copy of
    the property stored under [k], and [result[k]] is assigned. *)
Definition copyStep (get : string → option (result PropertyValue))
    (acc : result PropertyMap) (k : string) : result PropertyMap :=
  result ← acc;
  v ← default InvariantViolation (get k);
  OK (<[k := v]> result).

(** The loop itself, over the keys in the given order. *)
Definition copyLoop (get : string → option (result PropertyValue))
    (keys : list string) : result PropertyMap :=
  foldl (copyStep get) (OK ∅) keys.

(** [comp.Expr], [len(comp.Sources) == 1] and [comp.Sources[0] == resobj],
    where a nil [resobj] is [None]. *)
Definition isOutput (resobj : option addr) (comp : rt.ComputedValue_) : bool :=
  negb (rt.Expr comp)
  && bool_decide (length (rt.Sources comp) = 1)
  && bool_decide (rt.Sources comp !! 0 = resobj).

Definition isFunctionType (t : symbols.Type_) : bool :=
  match t with symbols.FunctionType _ _ => true | _ => false end.

(** The end of [copyObjectProperty], reached by every type that no earlier
    case returned for. *)
Definition copyUnrecognized (t : symbols.Type_) : result PropertyValue :=
  _ ← contract.Assert (isFunctionType t);
  OK zeroPropertyValue.

(** The computed case of [copyObjectProperty]. *)
Definition copyComputed (resobj : option addr) (obj : rt.Object)
    (t elem : symbols.Type_) : result PropertyValue :=
  comp ← rt.ComputedValue obj;
  let makeProperty := if isOutput resobj comp then MakeOutput else MakeComputed in
  match elem with
  | symbols.PrimitiveType types.Null => OK (makeProperty NewNullProperty)
  | symbols.PrimitiveType types.Bool => OK (makeProperty (NewBoolProperty false))
  | symbols.PrimitiveType types.Number => OK (makeProperty (NewNumberProperty 0%Z))
  | symbols.PrimitiveType types.String => OK (makeProperty (NewStringProperty ""))
  | symbols.PrimitiveType types.Object
  | symbols.PrimitiveType types.Dynamic =>
      OK (makeProperty (NewObjectProperty ∅))
  | symbols.ArrayType _ => OK (makeProperty (NewArrayProperty []))
  | symbols.Class _ _ => OK (makeProperty (NewObjectProperty ∅))
  | _ => copyUnrecognized t
  end.

(** The resource case of [copyObjectProperty]. *)
Definition copyResource (obj : rt.Object) : result PropertyValue :=
  idobj ← getIDObject obj;
  match idobj with
  | Some idobj =>
      if rt.IsString idobj then
        s ← rt.StringValue idobj;
        OK (NewStringProperty s)
      else OK (MakeComputed (NewStringProperty ""))
  | None => OK (MakeComputed (NewStringProperty ""))
  end.

(** [copyObjectProperty].  Every recursive call of the source passes a nil
    [resobj]; the calls on the properties of [obj] are made through the map
    of properties so that the recursion is structural. *)
Fixpoint copyObjectProperty (resobj : option addr) (obj : rt.Object)
    {struct obj} : result PropertyValue :=
  let t := rt.t obj in
  let copyObject_nil :=
    let props := rt.properties obj in
    copyLoop (λ k, (copyObjectProperty None <$> props) !! k) (rt.Stable props) in
  if predef.IsResourceType t then copyResource obj
  else
    match t with
    | symbols.PrimitiveType types.Null => OK NewNullProperty
    | symbols.PrimitiveType types.Bool =>
        b ← rt.BoolValue obj; OK (NewBoolProperty b)
    | symbols.PrimitiveType types.Number =>
        n ← rt.NumberValue obj; OK (NewNumberProperty n)
    | symbols.PrimitiveType types.String =>
        s ← rt.StringValue obj; OK (NewStringProperty s)
    | symbols.PrimitiveType types.Object
    | symbols.PrimitiveType types.Dynamic =>
        result ← copyObject_nil; OK (NewObjectProperty result)
    | symbols.ArrayType _ =>
        match rt.value obj with
        | rt.ArrayV elems =>
            result ← mapM (copyObjectProperty None) elems;
            OK (NewArrayProperty result)
        | _ => InvariantViolation
        end
    | symbols.MapType _ _ =>
        result ← copyObject_nil; OK (NewObjectProperty result)
    | symbols.Class _ _ =>
        result ← copyObject_nil; OK (NewObjectProperty result)
    | symbols.ComputedType elem => copyComputed resobj obj t elem
    | _ => copyUnrecognized t
    end.

(** [copyObjectProperties] *)
Definition copyObjectProperties (resobj : option addr)
    (props : gmap string rt.Object) : result PropertyMap :=
  copyLoop (λ k, copyObjectProperty resobj <$> props !! k) (rt.Stable props).

(** [copyObject] *)
Definition copyObject (resobj : option addr) (obj : rt.Object) : result PropertyMap :=
  let props := rt.properties obj in
  copyObjectProperties resobj props.

(** the method [CopyProperties] of [Object] *)
Definition CopyProperties (r : Object) : result PropertyMap :=
  copyObject (Some (ptr r)) (Obj r).

(** ** Hydration: property map to live object *)

(** The body of the loop of [setRuntimeProperties] for the entry [k], [v]. *)
Definition setRuntimeProperty (create : PropertyValue → result rt.Object)
    (k : string) (v : PropertyValue) (acc : result rt.Object) : result rt.Object :=
  obj ← acc;
  let obj := rt.InitProperty obj k in
  if rt.IsNull (rt.PropertyObj obj k) then
    val ← create v;
    OK (rt.SetProperty obj k val)
  else OK obj.

(** [createRuntimeProperty] *)
Fixpoint createRuntimeProperty (v : PropertyValue) : result rt.Object :=
  match v with
  | NewNullProperty => OK rt.Null
  | NewBoolProperty b => OK (rt.Bools b)
  | NewNumberProperty n => OK (rt.NewNumberObject n)
  | NewStringProperty s => OK (rt.NewStringObject s)
  | NewArrayProperty src =>
      arr ← mapM createRuntimeProperty src;
      OK (rt.NewArrayObject types.Dynamic arr)
  | NewObjectProperty props =>
      map_fold (setRuntimeProperty createRuntimeProperty)
        (OK (rt.NewObject types.Dynamic)) props
  | MakeComputed _ | MakeOutput _ => InvariantViolation
  end.

(** [setRuntimeProperties].  Go ranges over the map in an unspecified order;
    the entries are taken in the order of [map_fold]. *)
Definition setRuntimeProperties (obj : rt.Object) (props : PropertyMap) : result rt.Object :=
  map_fold (setRuntimeProperty createRuntimeProperty) (OK obj) props.

(** the method [SetProperties] of [Object]; a nil map is [None]. *)
Definition SetProperties (r : Object) (props : option PropertyMap) : result Object :=
  _ ← contract.Assert (bool_decide (props ≠ None));
  o ← setRuntimeProperties (Obj r) (default ∅ props);
  OK {| urn := urn r; ptr := ptr r; obj := o |}.

(** the method [Update] of [Object] *)
Definition Update (r : Object) (id : ID_t) (outputs : option PropertyMap)
  : result (Object * State) :=
  _ ← contract.Assert (HasURN r);
  inputs ← CopyProperties r;
  r ← SetID r id;
  r ← SetProperties r outputs;
  OK (r, NewState (Type_ r) (URN r) id inputs outputs).


(** ** Stack import: validation of the snapshot to import *)

Module stack_import.

(** Modelled from the spec: the packages declaring the snapshot, its resource
    states and its pending operations are not among the sources; only the
    fields that the command reads are kept.  A nil slice is the empty list. *)
Record ResourceState := { res_URN : string }.
Record Operation := { op_Resource : ResourceState; op_Type : string }.
Record Snapshot := {
  Resources : list ResourceState;
  PendingOperations : list Operation
}.

(** A warning handed to [cmdutil.Diag().Warningf(diag.Message(urn, msg))]. *)
Record Warning := Message { w_urn : string; w_msg : string }.

(** Modelled from the spec: [URN.Stack] is not among the sources.  A URN reads
    [urn:pulumi:<stack>::...]; the embedded stack name is the text between
    the prefix and the first [::]. *)
Definition URNPrefix : string := "urn:pulumi:".
Fixpoint dropPrefix (n : nat) (s : string) : string :=
  match n, s with
  | S n, String _ s => dropPrefix n s
  | _, _ => s
  end.
Fixpoint beforeDelimiter (s : string) : string :=
  match s with
  | String ":"%char (String ":"%char _) => ""
  | String c s => String c (beforeDelimiter s)
  | EmptyString => ""
  end.
Definition urnStack (urn : string) : string :=
  beforeDelimiter (dropPrefix (String.length URNPrefix) urn).

(** The error value [result] of the command is nil ([None]) or a
    [*multierror.Error], kept as the list of the messages it holds.
    [multierror.Append(result, errors.New(msg))] returns a
    [*multierror.Error]: the one given with [msg] appended, or a new one
    holding [msg] when [result] is nil. *)
Definition multierror_Append (result : option (list string)) (msg : string)
  : list string :=
  default [] result ++ [msg].

Definition closingMessage : string :=
  "importing this file could be dangerous; rerun with --force to proceed anyway".

Section command.
(** [URN.Stack], the serialization of the snapshot followed by
    [ImportDeployment] (which returns an error or nil), and the flags. *)
Variable Stack : string → string.
Variable importDeployment : Snapshot → option string.
Variable force : bool.
Variable stackName : string.

Definition mismatch (res : ResourceState) : bool :=
  bool_decide (Stack (res_URN res) ≠ stackName).

Definition mismatchMessage (res : ResourceState) : string :=
  "resource '" +:+ res_URN res +:+ "' is from a different stack (" +:+
  Stack (res_URN res) +:+ " != " +:+ stackName +:+ ")".

(** One iteration of the loop over [snapshot.Resources]; the state is the
    warnings issued so far and [result]. *)
Definition checkResource (st : list Warning * option (list string))
    (res : ResourceState) : list Warning * option (list string) :=
  let '(warnings, result) := st in
  if mismatch res then
    let msg := mismatchMessage res in
    if force then (warnings ++ [Message "" msg], result)
    else (warnings, Some (multierror_Append result msg))
  else st.

Definition checkResources (snapshot : Snapshot)
  : list Warning * option (list string) :=
  foldl checkResource ([], None) (Resources snapshot).

Definition pendingMessage (op : Operation) : Warning :=
  Message (res_URN (op_Resource op))
    ("removing pending operation '" +:+ op_Type op +:+ "' on '" +:+
     res_URN (op_Resource op) +:+ "' from snapshot").

(** The block that clears the pending operations: one warning for each, then
    the field is set to nil. *)
Definition clearPendingOperations (snapshot : Snapshot)
  : list Warning * Snapshot :=
  (pendingMessage <$> PendingOperations snapshot,
   {| Resources := Resources snapshot; PendingOperations := [] |}).

(** What the command returns. *)
Inductive Outcome :=
| Failed (errors : list string)
| ImportFailed (cause : string)
| ImportSuccessful.

(** The command from the loop over the resources to its end, given the
    deserialized snapshot: the warnings issued and the outcome. *)
Definition run (snapshot : Snapshot) : list Warning * Outcome :=
  let '(warnings, result) := checkResources snapshot in
  match result with
  | Some _ =>
      (warnings, Failed (multierror_Append result closingMessage))
  | None =>
      let '(cleared, snapshot) := clearPendingOperations snapshot in
      (warnings ++ cleared,
       match importDeployment snapshot with
       | Some err => ImportFailed err
       | None => ImportSuccessful
       end)
  end.

End command.
End stack_import.


(** * Specification vocabulary and sample inputs *)

(** What the ID slot of a live object may hold for [SetID] to go through:
    nothing, null, or a computed value. *)
Definition idUnset (o : rt.Object) : Prop :=
  match rt.GetProperty o IDProperty with
  | None => True
  | Some idobj => rt.IsNull idobj = true ∨ rt.IsComputed idobj = true
  end.

Definition resourceClass : symbols.Type_ :=
  symbols.Class "aws:ec2/instance:Instance"
    (Some (symbols.Class predef.ResourceClass None)).

(** A fresh resource object: no URN and no properties. *)
Definition freshResource : Object :=
  {| urn := ""; ptr := 1%positive; obj := rt.NewObject resourceClass |}.

(** The same with a URN and the ID [i-1]. *)
Definition createdResource : Object :=
  {| urn := "urn:pulumi:dev::web::aws:ec2/instance:Instance::server";
     ptr := 1%positive;
     obj := rt.SetProperty (rt.NewObject resourceClass) IDProperty
              (rt.NewStringObject "i-1") |}.

(** A resource object whose ID slot holds a computed value. *)
Definition plannedResource : Object :=
  {| urn := "urn:pulumi:dev::web::aws:ec2/instance:Instance::server";
     ptr := 1%positive;
     obj := rt.SetProperty (rt.NewObject resourceClass) IDProperty
              (rt.NewComputedObject types.String false [1%positive]) |}.

(** The spec's rule for a self-derived value: the computation has no free
    expression and exactly one source, and that source is the resource object
    being captured. *)
Definition selfDerived (resobj : option addr) (comp : rt.ComputedValue_) : Prop :=
  rt.Expr comp = false ∧ ∃ src, rt.Sources comp = [src] ∧ resobj = Some src.

(** The spec's placeholder: the zero value of a declared element kind, for
    the kinds that have one. *)
Definition zeroValue (elem : symbols.Type_) : option PropertyValue :=
  match elem with
  | symbols.PrimitiveType types.Null => Some NewNullProperty
  | symbols.PrimitiveType types.Bool => Some (NewBoolProperty false)
  | symbols.PrimitiveType types.Number => Some (NewNumberProperty 0%Z)
  | symbols.PrimitiveType types.String => Some (NewStringProperty "")
  | symbols.PrimitiveType types.Object => Some (NewObjectProperty ∅)
  | symbols.PrimitiveType types.Dynamic => Some (NewObjectProperty ∅)
  | symbols.ArrayType _ => Some (NewArrayProperty [])
  | symbols.Class _ _ => Some (NewObjectProperty ∅)
  | _ => None
  end.

(** A computed map of strings that derives from the object at address 1. *)
Definition computedMap : rt.Object :=
  rt.NewComputedObject (symbols.MapType types.String types.String) false
    [1%positive].

(** A computed function that derives from the object at address 1. *)
Definition computedFunction : rt.Object :=
  rt.NewComputedObject (symbols.FunctionType [] None) false [1%positive].

(** A computed string that derives from the object at address 1. *)
Definition computedString : rt.Object :=
  rt.NewComputedObject types.String false [1%positive].

(** A resource with a string property and a function-typed property. *)
Definition functionHolder : Object :=
  {| urn := "urn:pulumi:dev::web::aws:lambda/function:Function::f";
     ptr := 1%positive;
     obj := rt.MkObject resourceClass rt.NoValue
              {[ "name" := rt.NewStringObject "f";
                 "handler" := rt.MkObject (symbols.FunctionType [] None)
                                rt.NoValue ∅ ]} |}.

(** A resource with a property of a type that capture does not recognize. *)
Definition pointerHolder : Object :=
  {| urn := "urn:pulumi:dev::web::aws:lambda/function:Function::f";
     ptr := 1%positive;
     obj := rt.MkObject resourceClass rt.NoValue
              {[ "next" := rt.MkObject (symbols.PointerType types.String)
                             rt.NoValue ∅ ]} |}.

(** Whether an output occurs anywhere in a property value. *)
Fixpoint hasOutput (v : PropertyValue) : bool :=
  match v with
  | MakeOutput _ => true
  | MakeComputed v => hasOutput v
  | NewArrayProperty vs => existsb hasOutput vs
  | NewObjectProperty m => map_fold (λ _ v b, hasOutput v || b) false m
  | _ => false
  end.

(** Whether an output occurs strictly below the root of a property value. *)
Definition hasNestedOutput (v : PropertyValue) : bool :=
  match v with
  | MakeOutput v => hasOutput v
  | _ => hasOutput v
  end.

(** The number of objects in a live object graph, the measure of the
    induction on live objects. *)
Fixpoint Object_size (o : rt.Object) : nat :=
  match o with
  | rt.MkObject _ value props =>
      S (match value with
         | rt.ArrayV elems => foldr (λ e n, Object_size e + n) 0 elems
         | _ => 0
         end
         + map_fold (λ _ p n, Object_size p + n) 0 props)
  end.

(** A resource at address 1 whose properties all derive from the resource
    itself: one directly, one inside an object literal, one inside an array
    and one inside a map. *)
Definition selfReferring : Object :=
  {| urn := "urn:pulumi:dev::web::aws:ec2/instance:Instance::server";
     ptr := 1%positive;
     obj := rt.MkObject resourceClass rt.NoValue
              {[ "dns" := computedString;
                 "net" := rt.MkObject types.Object rt.NoValue
                            {[ "ip" := computedString ]};
                 "ports" := rt.NewArrayObject
                              (symbols.ComputedType types.String)
                              [computedString];
                 "tags" := rt.MkObject
                             (symbols.MapType types.String
                                (symbols.ComputedType types.String))
                             rt.NoValue {[ "owner" := computedString ]} ]} |}.

(** What capturing [selfReferring] yields. *)
Definition selfReferringCaptured : PropertyMap :=
  {[ "dns" := MakeOutput (NewStringProperty "");
     "net" := NewObjectProperty
                {[ "ip" := MakeComputed (NewStringProperty "") ]};
     "ports" := NewArrayProperty [MakeComputed (NewStringProperty "")];
     "tags" := NewObjectProperty
                 {[ "owner" := MakeComputed (NewStringProperty "") ]} ]}.

(** The destination of a write under [k] is unset: the slot is missing or
    holds null. *)
Definition destinationNull (o : rt.Object) (k : string) : bool :=
  rt.IsNull (rt.PropertyObj o k).

(** A live object with a set property and a null one. *)
Definition halfSet : rt.Object :=
  rt.MkObject resourceClass rt.NoValue
    {[ "name" := rt.NewStringObject "web"; "zone" := rt.Null ]}.

(** Values for both properties of [halfSet] and for a missing one; the value
    for the set property is not even hydratable. *)
Definition incoming : PropertyMap :=
  {[ "name" := MakeComputed (NewStringProperty "");
     "zone" := NewStringProperty "us-west-2";
     "size" := NewNumberProperty 3%Z ]}.

(** [halfSet] after the hydration of [incoming]. *)
Definition halfSetHydrated : rt.Object :=
  rt.MkObject resourceClass rt.NoValue
    {[ "name" := rt.NewStringObject "web";
       "zone" := rt.NewStringObject "us-west-2";
       "size" := rt.NewNumberObject 3%Z ]}.

(** A resource with a URN, no ID yet, and the live object [halfSet]. *)
Definition plannedServer : Object :=
  {| urn := "urn:pulumi:dev::web::aws:ec2/instance:Instance::server";
     ptr := 1%positive;
     obj := halfSet |}.

(** What capturing [plannedServer] yields. *)
Definition plannedServerInputs : PropertyMap :=
  {[ "name" := NewStringProperty "web"; "zone" := NewNullProperty ]}.

(** Outputs with a value that is not known yet, for a property that the live
    object does not have. *)
Definition unknownEndpoint : PropertyMap :=
  {[ "endpoint" := MakeComputed (NewStringProperty "") ]}.

(** The resources of a snapshot that belong to another stack than the target,
    in the order of the snapshot. *)
Definition mismatched (Stack : string → string) (stackName : string)
    (snapshot : stack_import.Snapshot) : list stack_import.ResourceState :=
  List.filter (stack_import.mismatch Stack stackName)
    (stack_import.Resources snapshot).

(** The warning issued for a mismatch under [--force]. *)
Definition mismatchWarning (Stack : string → string) (stackName : string)
    (res : stack_import.ResourceState) : stack_import.Warning :=
  stack_import.Message "" (stack_import.mismatchMessage Stack stackName res).

(** The snapshot that is serialized and imported. *)
Definition cleared (snapshot : stack_import.Snapshot) : stack_import.Snapshot :=
  {| stack_import.Resources := stack_import.Resources snapshot;
     stack_import.PendingOperations := [] |}.

(** The outcome of the command once the import has been attempted. *)
Definition importOutcome (err : option string) : stack_import.Outcome :=
  match err with
  | Some err => stack_import.ImportFailed err
  | None => stack_import.ImportSuccessful
  end.

(** Three resources, the second of which belongs to [stack-b], and one
    pending operation. *)
Definition exported : stack_import.Snapshot :=
  {| stack_import.Resources :=
       [ {| stack_import.res_URN := "urn:pulumi:stack-a::web::aws:s3/bucket:Bucket::logs" |};
         {| stack_import.res_URN := "urn:pulumi:stack-b::web::aws:s3/bucket:Bucket::data" |};
         {| stack_import.res_URN := "urn:pulumi:stack-a::web::aws:ec2/instance:Instance::server" |} ];
     stack_import.PendingOperations :=
       [ {| stack_import.op_Resource :=
              {| stack_import.res_URN := "urn:pulumi:stack-a::web::aws:ec2/instance:Instance::server" |};
            stack_import.op_Type := "creating" |} ] |}.

(** A backend that accepts a deployment only if it has no pending
    operation. *)
Definition strictBackend (snapshot : stack_import.Snapshot) : option string :=
  match stack_import.PendingOperations snapshot with
  | [] => None
  | _ => Some "pending operations"
  end.

(** Whether a computed or an output value occurs anywhere in a property
    value, that is whether the value is not fully resolved. *)
Fixpoint hasUnknown (v : PropertyValue) : bool :=
  match v with
  | MakeComputed _ | MakeOutput _ => true
  | NewArrayProperty vs => existsb hasUnknown vs
  | NewObjectProperty m => map_fold (λ _ v b, hasUnknown v || b) false m
  | _ => false
  end.

(** The number of nodes of a property value, the measure of the induction on
    property values. *)
Fixpoint PropertyValue_size (v : PropertyValue) : nat :=
  match v with
  | NewArrayProperty vs => S (foldr (λ v n, PropertyValue_size v + n) 0 vs)
  | NewObjectProperty m =>
      S (map_fold (λ _ v n, PropertyValue_size v + n) 0 m)
  | MakeComputed v | MakeOutput v => S (PropertyValue_size v)
  | _ => 1
  end.



(** * Vocabulary of the further properties *)

(** What it is for [m] to be the capture of [props]: the same keys, and under
    each key the copy of the property. *)
Definition captures (resobj : option addr) (props : gmap string rt.Object)
    (m : PropertyMap) : Prop :=
  ∀ k, match props !! k with
       | Some o => ∃ v, copyObjectProperty resobj o = OK v ∧ m !! k = Some v
       | None => m !! k = None
       end.

(** The capture expected after hydrating [outputs] onto an object whose
    capture was [before]: the outputs bound for an unset destination, over
    what was there. *)
Definition overlay (o : rt.Object) (outputs before : PropertyMap) : PropertyMap :=
  filter (λ kv, destinationNull o kv.1 = true) outputs ∪ before.

(** A fully resolved value with a string, an array and a nested object. *)
Definition sampleValue : PropertyValue :=
  NewObjectProperty
    {[ "name" := NewStringProperty "web";
       "ports" := NewArrayProperty [NewNumberProperty 80%Z; NewNullProperty];
       "tags" := NewObjectProperty {[ "live" := NewBoolProperty true ]} ]}.

(** * The [config] command of an environment *)

Module env_config.

(** Modelled from the spec: [resource.ConfigMap] is not among the sources; the
    command stores strings under token keys, and a nil map is [None]. *)
Record Env := {
  Name : string;
  Config : option (gmap string string)
}.

(** One call of [fmt.Printf], or the call of [exitError]: the format and the
    arguments. *)
Record Printf := { format : string; arguments : list string }.

(** What a run of the command does: the environment it leaves in memory,
    what it prints, the environment it hands to [saveEnv] if it saves, and
    the error it exits with if it does. *)
Record Run := {
  env : Env;
  stdout : list Printf;
  saved : option Env;
  exitError : option Printf
}.

Definition rowFormat : string := "%-32s %-32s\n".

(** Modelled from the spec: [resource.StableConfigKeys] is not among the
    sources; it enumerates the keys in a deterministic, sorted order. *)
Definition StableConfigKeys (config : gmap string string) : list string :=
  rt.Stable config.

(** The function given as [Run] to the command, after [initEnvCmd] has
    produced the environment and the arguments that follow its name;
    [unset] is the flag [--unset]. *)
Definition run (unset : bool) (e : Env) (args : list string) : Run :=
  let config := Config e in
  match args with
  | [] =>
      match config with
      | Some config =>
          {| env := e;
             stdout :=
               {| format := rowFormat; arguments := ["KEY"; "VALUE"] |}
               :: ((λ key, {| format := rowFormat;
                              arguments := [key; config !!! key] |})
                     <$> StableConfigKeys config);
             saved := None; exitError := None |}
      | None => {| env := e; stdout := []; saved := None; exitError := None |}
      end
  | key :: values =>
      let config := default ∅ config in
      match values with
      | value :: _ =>
          let e := {| Name := Name e; Config := Some (<[key := value]> config) |} in
          {| env := e; stdout := []; saved := Some e; exitError := None |}
      | [] =>
          if unset then
            let e := {| Name := Name e; Config := Some (delete key config) |} in
            {| env := e; stdout := []; saved := Some e; exitError := None |}
          else
            let e := {| Name := Name e; Config := Some config |} in
            match config !! key with
            | Some v =>
                {| env := e;
                   stdout := [{| format := "%v\n"; arguments := [v] |}];
                   saved := None; exitError := None |}
            | None =>
                {| env := e; stdout := []; saved := None;
                   exitError :=
                     Some {| format := "configuration key '%v' not found for environment '%v'";
                             arguments := [key; Name e] |} |}
            end
      end
  end.

End env_config.

(** An environment with two configuration entries. *)
Definition sampleEnv : env_config.Env :=
  {| env_config.Name := "dev";
     env_config.Config := Some {[ "aws:region" := "us-west-2";
                                  "app:replicas" := "3" ]} |}.

(** An environment that has no configuration map yet. *)
Definition blankEnv : env_config.Env :=
  {| env_config.Name := "dev"; env_config.Config := None |}.

(** * Positions in a live object and in its capture *)

(** One step down: into the property, map entry or field stored under a key,
    or into the element of an array at an index. *)
Inductive Step := Key (k : string) | Index (i : nat).

(** The objects whose properties capture clones: an object literal, a dynamic
    object, a map or a class instance, provided it is not a resource. *)
Definition isContainer (o : rt.Object) : bool :=
  negb (predef.IsResourceType (rt.Type_ o)) &&
  match rt.Type_ o with
  | symbols.PrimitiveType types.Object
  | symbols.PrimitiveType types.Dynamic
  | symbols.MapType _ _
  | symbols.Class _ _ => true
  | _ => false
  end.

Definition isArray (o : rt.Object) : bool :=
  match rt.Type_ o with symbols.ArrayType _ => true | _ => false end.

(** The live object found by going down a path from [o]. *)
Fixpoint liveAt (o : rt.Object) (path : list Step) : option rt.Object :=
  match path with
  | [] => Some o
  | Key k :: path =>
      if isContainer o then p ← rt.properties o !! k; liveAt p path else None
  | Index i :: path =>
      if isArray o then
        match rt.value o with
        | rt.ArrayV elems => e ← elems !! i; liveAt e path
        | _ => None
        end
      else None
  end.

(** The property value found by going down a path from [v]. *)
Fixpoint capturedAt (v : PropertyValue) (path : list Step) : option PropertyValue :=
  match path with
  | [] => Some v
  | Key k :: path =>
      match v with
      | NewObjectProperty m => w ← m !! k; capturedAt w path
      | _ => None
      end
  | Index i :: path =>
      match v with
      | NewArrayProperty vs => w ← vs !! i; capturedAt w path
      | _ => None
      end
  end.



(** A resource whose ID slot holds null. *)
Definition nullIdResource : Object :=
  {| urn := ""; ptr := 1%positive;
     obj := rt.SetProperty (rt.NewObject resourceClass) IDProperty rt.Null |}.


(** * Properties *)

(** ** Identity: [SetURN], [SetID], [HasID], [ID] *)

(** Every resource object made by [NewObject] is of a resource type, and has
    no URN yet. *)
Lemma NewObject_resource (a : addr) (o : rt.Object) (r : Object) :
  NewObject a o = OK r →
  IsResourceObject (Obj r) = true ∧ HasURN r = false ∧ Obj r = o ∧ ptr r = a.
Proof.
  unfold NewObject. destruct (IsResourceObject o) eqn:Hres; simpl; [|done].
  by intros [= <-].
Qed.

Lemma SetID_unset (r : Object) (id : ID_t) :
  idUnset (obj r) →
  SetID r id =
    OK {| urn := urn r; ptr := ptr r;
          obj := rt.SetProperty (rt.InitProperty (obj r) IDProperty) IDProperty
                   (rt.NewStringObject id) |}.
Proof.
  unfold idUnset, SetID, rt.GetProperty, rt.PropertyObj, rt.InitProperty.
  destruct (rt.properties (obj r) !! IDProperty) as [idobj|] eqn:Hid.
  - rewrite Hid. simpl. intros [-> | ->]; [done|].
    by rewrite orb_true_r.
  - intros _. simpl. by rewrite lookup_insert_eq.
Qed.

Lemma SetProperty_lookup (o : rt.Object) (k : string) (v : rt.Object) :
  rt.GetProperty (rt.SetProperty o k v) k = Some v.
Proof. unfold rt.GetProperty, rt.SetProperty. simpl. apply lookup_insert_eq. Qed.

Lemma InitProperty_type (o : rt.Object) (k : string) :
  rt.t (rt.InitProperty o k) = rt.t o.
Proof. unfold rt.InitProperty. by destruct (rt.properties o !! k). Qed.

(** A resource object whose ID slot holds the string [id] has that ID. *)
Lemma ID_of_string_slot (r : Object) (id : ID_t) :
  IsResourceObject (obj r) = true →
  rt.GetProperty (obj r) IDProperty = Some (rt.NewStringObject id) →
  HasID r = OK true ∧ ID r = OK id.
Proof.
  intros Hres Hid. unfold HasID, ID, getIDObject, Obj.
  rewrite Hres, Hid. done.
Qed.

(** C6. [SetURN] on an object whose URN is set is an invariant violation (and
    assigns the URN otherwise); [SetID] on an object whose ID slot holds a
    string is an invariant violation, and [SetID] on an object whose ID slot
    is missing, null or computed succeeds and stores the new ID in the slot,
    where [HasID] and [ID] then find it. *)
Theorem SetURN_SetID_at_most_once (r : Object) :
  (∀ m, HasURN r = true → SetURN r m = InvariantViolation) ∧
  (∀ m, HasURN r = false →
     SetURN r m = OK {| urn := m; ptr := ptr r; obj := obj r |}) ∧
  (∀ id idobj,
     rt.GetProperty (obj r) IDProperty = Some idobj →
     rt.IsString idobj = true →
     SetID r id = InvariantViolation) ∧
  (∀ id, idUnset (obj r) →
     ∃ r', SetID r id = OK r' ∧
           urn r' = urn r ∧
           rt.GetProperty (obj r') IDProperty = Some (rt.NewStringObject id) ∧
           (IsResourceObject (obj r) = true →
            HasID r' = OK true ∧ ID r' = OK id)).
Proof.
  repeat split.
  - intros m H. unfold SetURN. by rewrite H.
  - intros m H. unfold SetURN. by rewrite H.
  - intros id idobj Hid Hstr. unfold SetID, rt.PropertyObj, rt.InitProperty.
    unfold rt.GetProperty in Hid. rewrite Hid. simpl. rewrite Hid. simpl.
    unfold rt.IsString in Hstr. unfold rt.IsNull, rt.IsComputed.
    destruct (rt.t idobj) as [[]| | | | | |]; done.
  - intros id Hunset. eexists. split; [by apply SetID_unset|].
    simpl. split; [done|]. split; [apply SetProperty_lookup|].
    intros Hres. apply ID_of_string_slot.
    + unfold IsResourceObject, rt.Type_ in *. simpl.
      by rewrite InitProperty_type.
    + apply SetProperty_lookup.
Qed.

Lemma SetURN_SetID_at_most_once_witness :
  SetURN createdResource "urn:other" = InvariantViolation ∧
  SetID createdResource "i-2" = InvariantViolation ∧
  (∃ r', SetID freshResource "i-1" = OK r' ∧ ID r' = OK "i-1").
Proof.
  destruct (SetURN_SetID_at_most_once createdResource) as (H1 & _ & H3 & _).
  destruct (SetURN_SetID_at_most_once freshResource) as (_ & _ & _ & H4).
  split; [apply H1; reflexivity|].
  split; [eapply H3; reflexivity|].
  destruct (H4 "i-1") as (r' & Hset & _ & _ & Hid); [exact I|].
  exists r'. split; [exact Hset|]. apply Hid. reflexivity.
Defined.

(** C7, at the input where it fails: on a resource whose ID slot holds a
    computed value, which [getIDObject] and [SetID] both allow for, [HasID]
    returns true and [ID] stops at its assertion that the slot is a string. *)
Theorem HasID_true_ID_fails :
  idUnset (obj plannedResource) ∧
  HasID plannedResource = OK true ∧
  ID plannedResource = InvariantViolation.
Proof. split; [right; reflexivity|]. split; reflexivity. Qed.

(** ** Capture *)

Lemma copyLoop_ext (get1 get2 : string → option (result PropertyValue))
    (keys : list string) :
  (∀ k, get1 k = get2 k) → copyLoop get1 keys = copyLoop get2 keys.
Proof.
  intros Hext. unfold copyLoop. generalize (OK (∅ : PropertyMap)).
  induction keys as [|k keys IH]; intros acc; simpl; [done|].
  unfold copyStep at 2 4. rewrite Hext. apply IH.
Qed.

(** The equation of [copyObjectProperty], in the shape of the source. *)
Lemma copyObjectProperty_eq (resobj : option addr) (obj : rt.Object) :
  copyObjectProperty resobj obj =
    let t := rt.Type_ obj in
    if predef.IsResourceType t then copyResource obj
    else
      match t with
      | symbols.PrimitiveType types.Null => OK NewNullProperty
      | symbols.PrimitiveType types.Bool =>
          b ← rt.BoolValue obj; OK (NewBoolProperty b)
      | symbols.PrimitiveType types.Number =>
          n ← rt.NumberValue obj; OK (NewNumberProperty n)
      | symbols.PrimitiveType types.String =>
          s ← rt.StringValue obj; OK (NewStringProperty s)
      | symbols.PrimitiveType types.Object
      | symbols.PrimitiveType types.Dynamic =>
          result ← copyObject None obj; OK (NewObjectProperty result)
      | symbols.ArrayType _ =>
          elems ← rt.ArrayValue obj;
          result ← mapM (copyObjectProperty None) elems;
          OK (NewArrayProperty result)
      | symbols.MapType _ _ =>
          result ← copyObjectProperties None (rt.properties obj);
          OK (NewObjectProperty result)
      | symbols.Class _ _ =>
          result ← copyObject None obj; OK (NewObjectProperty result)
      | symbols.ComputedType elem => copyComputed resobj obj t elem
      | _ => copyUnrecognized t
      end.
Proof.
  assert (Hloop : copyLoop
            (λ k, (copyObjectProperty None <$> rt.properties obj) !! k)
            (rt.Stable (rt.properties obj)) = copyObject None obj).
  { unfold copyObject, copyObjectProperties. apply copyLoop_ext.
    intros k. apply lookup_fmap. }
  destruct obj as [t value props]. simpl in *. unfold rt.Type_. simpl.
  destruct (predef.IsResourceType t); [done|].
  destruct t as [[]| | | | | |]; simpl; rewrite ?Hloop; try done.
  unfold rt.ArrayValue. simpl. by destruct value.
Qed.

Lemma copyObjectProperty_resource (resobj : option addr) (obj : rt.Object) :
  predef.IsResourceType (rt.Type_ obj) = true →
  copyObjectProperty resobj obj = copyResource obj.
Proof. intros H. rewrite copyObjectProperty_eq. simpl. by rewrite H. Qed.

(** C2, as amended.  A resource-typed value is captured as the string
    holding the ID of the referenced resource when that resource has an ID,
    and as a computed string with an empty placeholder when it has no ID
    slot ([HasID] is false) or its ID slot holds a computed value; when the
    ID slot holds anything else, null included, capturing the reference is
    an invariant violation. *)
Theorem resource_reference_capture (resobj : option addr) (r : Object) :
  IsResourceObject (Obj r) = true →
  (∀ id, ID r = OK id →
     copyObjectProperty resobj (Obj r) = OK (NewStringProperty id)) ∧
  (HasID r = OK false →
     copyObjectProperty resobj (Obj r) = OK (MakeComputed (NewStringProperty ""))) ∧
  (∀ idobj, rt.GetProperty (Obj r) IDProperty = Some idobj →
     rt.IsComputed idobj = true →
     copyObjectProperty resobj (Obj r) = OK (MakeComputed (NewStringProperty ""))) ∧
  (∀ idobj, rt.GetProperty (Obj r) IDProperty = Some idobj →
     rt.IsString idobj = false → rt.IsComputed idobj = false →
     copyObjectProperty resobj (Obj r) = InvariantViolation).
Proof.
  intros Hres. rewrite copyObjectProperty_resource by exact Hres.
  unfold ID, HasID, copyResource, getIDObject. rewrite Hres. simpl.
  destruct (rt.GetProperty (Obj r) IDProperty) as [idobj|] eqn:Hid; simpl;
    [|repeat split; done].
  unfold rt.IsString, rt.IsNull, rt.IsComputed.
  destruct (rt.t idobj) as [[]| | | | | |] eqn:Ht; simpl;
    unfold rt.IsString, rt.IsNull, rt.IsComputed; rewrite ?Ht; simpl;
    repeat split; try done;
    try (intros ? [= <-]; unfold rt.IsComputed; rewrite Ht; done);
    try (intros ? [= <-]; rewrite Ht; done).
  intros id Hval. by rewrite Hval.
Qed.

Lemma resource_reference_capture_witness :
  copyObjectProperty None (Obj createdResource) = OK (NewStringProperty "i-1") ∧
  copyObjectProperty None (Obj freshResource)
    = OK (MakeComputed (NewStringProperty "")) ∧
  copyObjectProperty None (Obj plannedResource)
    = OK (MakeComputed (NewStringProperty "")) ∧
  copyObjectProperty None (Obj nullIdResource) = InvariantViolation.
Proof.
  split; [|split; [|split]].
  - apply (resource_reference_capture None createdResource); reflexivity.
  - apply (resource_reference_capture None freshResource); reflexivity.
  - eapply (resource_reference_capture None plannedResource); reflexivity.
  - eapply (resource_reference_capture None nullIdResource); reflexivity.
Defined.

(** C2 as stated fails: this resource has no assigned ID, its ID slot holding
    null, a state that [SetID] accepts and that hydrating a null [id] output
    onto a fresh resource produces; yet capturing a reference to it is an
    invariant violation and no computed string. *)
Lemma null_ID_reference_capture_fails :
  IsResourceObject (Obj nullIdResource) = true ∧
  idUnset (Obj nullIdResource) ∧
  SetProperties freshResource (Some {[ IDProperty := NewNullProperty ]})
    = OK nullIdResource ∧
  (∀ resobj,
     copyObjectProperty resobj (Obj nullIdResource) = InvariantViolation).
Proof.
  split; [reflexivity|]. split; [left; reflexivity|].
  split; [vm_compute; reflexivity|]. intros resobj.
  rewrite copyObjectProperty_resource by reflexivity. reflexivity.
Qed.

Lemma isOutput_selfDerived (resobj : option addr) (comp : rt.ComputedValue_) :
  isOutput resobj comp = true ↔ selfDerived resobj comp.
Proof.
  unfold isOutput, selfDerived.
  rewrite !andb_true_iff, negb_true_iff, !bool_decide_eq_true.
  destruct (rt.Sources comp) as [|src [|src' srcs]]; simpl; split.
  - intros [[_ [=]] _].
  - intros (_ & ? & [=] & _).
  - intros [[? _] <-]. eauto.
  - intros (? & ? & [= <-] & ->). done.
  - intros [[_ [=]] _].
  - intros (_ & ? & [=] & _).
Qed.

Lemma copyObjectProperty_computed (resobj : option addr) (obj : rt.Object)
    (elem : symbols.Type_) :
  rt.Type_ obj = symbols.ComputedType elem →
  copyObjectProperty resobj obj =
    copyComputed resobj obj (symbols.ComputedType elem) elem.
Proof. intros H. rewrite copyObjectProperty_eq. simpl. by rewrite H. Qed.

(** C3, as amended.  For a computed-typed value whose declared element kind
    has a zero value (null, bool, number, string, object, dynamic, an array
    or a class), [copyObjectProperty] emits an output when the computation is
    self-derived with respect to [resobj] and a computed value otherwise, and
    either wraps the zero value of the element kind. *)
Theorem computed_capture (resobj : option addr) (obj : rt.Object)
    (elem : symbols.Type_) (comp : rt.ComputedValue_) (zero : PropertyValue) :
  rt.Type_ obj = symbols.ComputedType elem →
  rt.ComputedValue obj = OK comp →
  zeroValue elem = Some zero →
  (selfDerived resobj comp →
     copyObjectProperty resobj obj = OK (MakeOutput zero)) ∧
  (¬ selfDerived resobj comp →
     copyObjectProperty resobj obj = OK (MakeComputed zero)).
Proof.
  intros Ht Hcomp Hzero.
  rewrite (copyObjectProperty_computed _ _ _ Ht).
  unfold copyComputed. rewrite Hcomp. simpl.
  rewrite <- isOutput_selfDerived.
  destruct (isOutput resobj comp); split; intros Hself; try done;
    destruct elem as [[]| | | | | |]; simpl in Hzero; try done;
    by injection Hzero as <-.
Qed.

Lemma computed_capture_witness :
  copyObjectProperty (Some 1%positive) computedString
    = OK (MakeOutput (NewStringProperty "")) ∧
  copyObjectProperty (Some 2%positive) computedString
    = OK (MakeComputed (NewStringProperty "")).
Proof.
  split.
  - eapply (computed_capture (Some 1%positive) computedString); try reflexivity.
    split; [reflexivity|]. exists 1%positive. done.
  - eapply (computed_capture (Some 2%positive) computedString); try reflexivity.
    intros (_ & src & [= <-] & [=]).
Defined.

(** C3 as stated fails: a computed function and a computed map are
    computed-typed values, and these two are self-derived with respect to the
    object at address 1, yet capturing either emits neither an output nor a
    computed value. *)
Lemma computed_unsupported_element_fails :
  (rt.IsComputed computedFunction = true ∧
   (∃ comp, rt.ComputedValue computedFunction = OK comp ∧
            selfDerived (Some 1%positive) comp) ∧
   copyObjectProperty (Some 1%positive) computedFunction = InvariantViolation) ∧
  (rt.IsComputed computedMap = true ∧
   (∃ comp, rt.ComputedValue computedMap = OK comp ∧
            selfDerived (Some 1%positive) comp) ∧
   copyObjectProperty (Some 1%positive) computedMap = InvariantViolation).
Proof.
  split; (split; [reflexivity|]; split; [|reflexivity]);
    (eexists; split; [reflexivity|]; split; [reflexivity|]);
    by exists 1%positive.
Qed.

(** *** The loop over the properties *)

Lemma copyLoop_step_fail (get : string → option (result PropertyValue))
    (keys : list string) :
  foldl (copyStep get) InvariantViolation keys = InvariantViolation.
Proof. induction keys as [|k keys IH]; simpl; [done|apply IH]. Qed.

Lemma copyLoop_acc (get : string → option (result PropertyValue))
    (keys : list string) (acc m : PropertyMap) :
  foldl (copyStep get) (OK acc) keys = OK m →
  (∀ k, k ∈ keys → ∃ v, get k = Some (OK v) ∧ m !! k = Some v) ∧
  (∀ k, k ∉ keys → m !! k = acc !! k).
Proof.
  revert acc. induction keys as [|k keys IH]; intros acc; simpl.
  - intros [= ->]. split; [|done]. intros k Hk. by apply elem_of_nil in Hk.
  - destruct (get k) as [[v|]|] eqn:Hget; simpl;
      try (rewrite copyLoop_step_fail; discriminate).
    intros Hfold. destruct (IH _ Hfold) as [Hin Hout]. split.
    + intros k' Hk'. destruct (decide (k' ∈ keys)) as [|Hnot]; [by apply Hin|].
      apply elem_of_cons in Hk' as [->|?]; [|done].
      exists v. split; [done|]. rewrite (Hout _ Hnot). apply lookup_insert_eq.
    + intros k' Hk'. apply not_elem_of_cons in Hk' as [Hne Hnot].
      rewrite (Hout _ Hnot). by apply lookup_insert_ne.
Qed.

Lemma elem_of_Stable {A} (props : gmap string A) (k : string) :
  k ∈ rt.Stable props ↔ is_Some (props !! k).
Proof.
  unfold rt.Stable. rewrite merge_sort_Permutation, list_elem_of_fmap. split.
  - intros ([k' x] & -> & Hin). apply elem_of_map_to_list in Hin. eauto.
  - intros [x Hx]. exists (k, x). split; [done|].
    by apply elem_of_map_to_list.
Qed.

(** The captured map has exactly the keys of the live properties, each with
    the copy of the property stored under it. *)
Lemma copyObjectProperties_lookup (resobj : option addr)
    (props : gmap string rt.Object) (m : PropertyMap) :
  copyObjectProperties resobj props = OK m →
  ∀ k, match props !! k with
       | Some o => ∃ v, copyObjectProperty resobj o = OK v ∧ m !! k = Some v
       | None => m !! k = None
       end.
Proof.
  unfold copyObjectProperties, copyLoop. intros Hloop k.
  apply copyLoop_acc in Hloop as [Hin Hout].
  destruct (props !! k) as [o|] eqn:Hk.
  - destruct (Hin k) as (v & Hget & Hm).
    { apply elem_of_Stable. by rewrite Hk. }
    rewrite Hk in Hget. simpl in Hget. exists v. split; congruence.
  - rewrite Hout; [apply lookup_empty|].
    rewrite elem_of_Stable, Hk. by intros [? [=]].
Qed.

Lemma copyObjectProperties_fails (resobj : option addr)
    (props : gmap string rt.Object) (k : string) (o : rt.Object) :
  props !! k = Some o →
  copyObjectProperty resobj o = InvariantViolation →
  copyObjectProperties resobj props = InvariantViolation.
Proof.
  intros Hk Hfail.
  destruct (copyObjectProperties resobj props) as [m|] eqn:Hm; [|done].
  pose proof (copyObjectProperties_lookup _ _ _ Hm k) as Hlook.
  rewrite Hk in Hlook. destruct Hlook as (v & Hv & _). congruence.
Qed.

(** A function-typed property is copied to the zero property value, and the
    loop stores that value under the key of the property. *)
Lemma function_property_entry (r : Object) (k : string) (f : rt.Object)
    (m : PropertyMap) :
  rt.GetProperty (Obj r) k = Some f →
  isFunctionType (rt.Type_ f) = true →
  CopyProperties r = OK m →
  m !! k = Some zeroPropertyValue.
Proof.
  unfold CopyProperties, copyObject, rt.GetProperty. intros Hk Hfun Hm.
  pose proof (copyObjectProperties_lookup _ _ _ Hm k) as Hlook.
  rewrite Hk in Hlook. destruct Hlook as (v & Hv & ->). f_equal.
  rewrite copyObjectProperty_eq in Hv. unfold rt.Type_ in *. simpl in Hv.
  revert Hfun Hv. destruct (rt.t f); try done. simpl. by intros _ [= <-].
Qed.

(** Any type that no case of [copyObjectProperty] names is an invariant
    violation, for the property and for the capture of the object holding
    it. *)
Lemma unrecognized_property_fails (r : Object) (k : string) (p : rt.Object)
    (elem : symbols.Type_) :
  rt.GetProperty (Obj r) k = Some p →
  rt.Type_ p = symbols.PointerType elem →
  CopyProperties r = InvariantViolation.
Proof.
  intros Hk Ht. unfold CopyProperties, copyObject.
  apply (copyObjectProperties_fails _ _ k p Hk).
  rewrite copyObjectProperty_eq. simpl. by rewrite Ht.
Qed.

(** C5, at the input where it fails: capturing a resource that has a
    function-typed property [handler] succeeds, and the captured map does
    have an entry under [handler], holding the zero (null) property value.
    The other half of the claim holds: a property of an unrecognized type
    makes the capture an invariant violation. *)
Theorem function_property_is_stored :
  (∃ m, CopyProperties functionHolder = OK m ∧
        m !! "handler" = Some NewNullProperty ∧
        m !! "name" = Some (NewStringProperty "f")) ∧
  CopyProperties pointerHolder = InvariantViolation.
Proof.
  split.
  - destruct (CopyProperties functionHolder) as [m|] eqn:Hm;
      [|by vm_compute in Hm].
    exists m. split; [done|]. split.
    + by apply (function_property_entry functionHolder "handler"
                  (rt.MkObject (symbols.FunctionType [] None) rt.NoValue ∅)).
    + vm_compute in Hm. injection Hm as <-. reflexivity.
  - by apply (unrecognized_property_fails pointerHolder "next"
                (rt.MkObject (symbols.PointerType types.String) rt.NoValue ∅)
                types.String).
Qed.

Example selfReferring_capture :
  CopyProperties selfReferring = OK selfReferringCaptured.
Proof. vm_compute. reflexivity. Qed.

(** *** Induction on live objects *)

Lemma Object_size_property (o p : rt.Object) (k : string) :
  rt.properties o !! k = Some p → Object_size p < Object_size o.
Proof.
  destruct o as [t value props]. simpl. intros Hk.
  rewrite (map_fold_delete_L _ _ k p props); [lia| |done].
  intros. lia.
Qed.

Lemma Object_size_element (o e : rt.Object) (elems : list rt.Object) :
  rt.value o = rt.ArrayV elems → e ∈ elems → Object_size e < Object_size o.
Proof.
  destruct o as [t value props]. simpl. intros -> He.
  assert (Object_size e ≤ foldr (λ e n, Object_size e + n) 0 elems); [|lia].
  induction He as [e elems|e e' elems He IH]; simpl; lia.
Qed.

Lemma Object_nested_ind (P : rt.Object → Prop) :
  (∀ o,
     (∀ elems e, rt.value o = rt.ArrayV elems → e ∈ elems → P e) →
     (∀ k p, rt.properties o !! k = Some p → P p) →
     P o) →
  ∀ o, P o.
Proof.
  intros Hstep o. remember (Object_size o) as n eqn:Hn. revert o Hn.
  induction n as [n IH] using lt_wf_ind. intros o ->. apply Hstep.
  - intros elems e Hv He. eapply IH; [|done]. by eapply Object_size_element.
  - intros k p Hk. eapply IH; [|done]. by eapply Object_size_property.
Qed.

(** *** No output below the top-level properties *)

Lemma map_fold_orb_false {A} (f : A → bool) (m : gmap string A) :
  map_fold (λ _ x b, f x || b) false m = false ↔
  ∀ k x, m !! k = Some x → f x = false.
Proof.
  apply (map_fold_weak_ind
           (λ (b : bool) (m : gmap string A),
              b = false ↔ ∀ k x, m !! k = Some x → f x = false)).
  - split; [|done]. intros _ k x Hk. by rewrite lookup_empty in Hk.
  - intros k x m' b Hfresh IH. rewrite orb_false_iff, IH. split.
    + intros [Hx Hm'] k' x' Hk'. apply lookup_insert_Some in Hk'.
      destruct Hk' as [[<- <-]|[_ Hk']]; eauto.
    + intros Hall. split.
      * apply (Hall k). apply lookup_insert_eq.
      * intros k' x' Hk'. apply (Hall k'). rewrite lookup_insert_ne; [done|].
        intros <-. congruence.
Qed.

Lemma hasOutput_object (m : PropertyMap) :
  hasOutput (NewObjectProperty m) = false ↔
  ∀ k v, m !! k = Some v → hasOutput v = false.
Proof. apply map_fold_orb_false. Qed.

Lemma hasOutput_array (vs : list PropertyValue) :
  hasOutput (NewArrayProperty vs) = false ↔
  Forall (λ v, hasOutput v = false) vs.
Proof.
  simpl. induction vs as [|v vs IH]; simpl.
  - split; [constructor|done].
  - rewrite orb_false_iff, IH, Forall_cons. done.
Qed.

Lemma mapM_OK {A B} (f : A → result B) (l : list A) (k : list B) :
  mapM f l = OK k → Forall2 (λ x y, f x = OK y) l k.
Proof.
  revert k. induction l as [|x l IH]; simpl; intros k.
  - intros [= <-]. constructor.
  - destruct (f x) as [y|] eqn:Hx; simpl; [|done].
    destruct (mapM f l) as [k'|]; simpl; [|done].
    intros [= <-]. constructor; [done|]. by apply IH.
Qed.

Lemma isOutput_nil (comp : rt.ComputedValue_) : isOutput None comp = false.
Proof.
  apply not_true_iff_false. rewrite isOutput_selfDerived.
  by intros (_ & src & _ & [=]).
Qed.

Lemma zeroValue_no_output (elem : symbols.Type_) (zero : PropertyValue) :
  zeroValue elem = Some zero → hasOutput zero = false.
Proof. destruct elem as [[]| | | | | |]; simpl; intros [= <-]; done. Qed.

(** The computed case returns an output or a computed value around the zero
    value of the element kind, or fails. *)
Lemma copyComputed_OK (resobj : option addr) (obj : rt.Object)
    (elem : symbols.Type_) (v : PropertyValue) :
  copyComputed resobj obj (symbols.ComputedType elem) elem = OK v →
  ∃ comp zero,
    rt.ComputedValue obj = OK comp ∧ zeroValue elem = Some zero ∧
    v = (if isOutput resobj comp then MakeOutput else MakeComputed) zero.
Proof.
  unfold copyComputed.
  destruct (rt.ComputedValue obj) as [comp|]; simpl; [|done].
  intros Hv. exists comp.
  destruct elem as [[]| | | | | |]; simpl in *; try done;
    injection Hv as <-; eauto.
Qed.

Lemma copyObjectProperties_no_output (props : gmap string rt.Object)
    (m : PropertyMap) :
  (∀ k p, props !! k = Some p →
     ∀ v, copyObjectProperty None p = OK v → hasOutput v = false) →
  copyObjectProperties None props = OK m →
  hasOutput (NewObjectProperty m) = false.
Proof.
  intros IH Hm. apply hasOutput_object. intros k v Hk.
  pose proof (copyObjectProperties_lookup _ _ _ Hm k) as Hlook.
  destruct (props !! k) as [p|] eqn:Hp; [|congruence].
  destruct Hlook as (v' & Hv' & Hk'). eapply IH; [done|]. congruence.
Qed.

(** With a nil resource context, capture never emits an output, at any
    depth. *)
Lemma copyObjectProperty_nil_no_output (obj : rt.Object) (v : PropertyValue) :
  copyObjectProperty None obj = OK v → hasOutput v = false.
Proof.
  revert v. induction obj as [obj IHelems IHprops] using Object_nested_ind.
  intros v. rewrite copyObjectProperty_eq. unfold rt.Type_, copyObject. simpl.
  destruct (predef.IsResourceType (rt.t obj)).
  { unfold copyResource. destruct (getIDObject obj) as [[idobj|]|]; simpl;
      [|by intros [= <-]|done].
    destruct (rt.IsString idobj); [|by intros [= <-]].
    destruct (rt.StringValue idobj); simpl; [|done]. by intros [= <-]. }
  assert (Hobject : ∀ v,
      copyObjectProperties None (rt.properties obj)
        ≫= (λ result, OK (NewObjectProperty result)) = OK v →
      hasOutput v = false).
  { intros v'.
    destruct (copyObjectProperties None (rt.properties obj)) as [m|] eqn:Hm;
      simpl; [|done].
    intros [= <-]. by eapply copyObjectProperties_no_output. }
  destruct (rt.t obj) as [[]| | | | | |] eqn:Ht; simpl; try by apply Hobject.
  - by intros [= <-].
  - destruct (rt.BoolValue obj); simpl; [|done]. by intros [= <-].
  - destruct (rt.NumberValue obj); simpl; [|done]. by intros [= <-].
  - destruct (rt.StringValue obj); simpl; [|done]. by intros [= <-].
  - unfold rt.ArrayValue.
    destruct (rt.value obj) as [| | | |elems|] eqn:Hvalue; simpl; try done.
    destruct (mapM (copyObjectProperty None) elems) as [vs|] eqn:Hvs;
      simpl; [|done].
    intros [= <-]. apply hasOutput_array. apply mapM_OK in Hvs.
    assert (Hall : ∀ e, e ∈ elems →
              ∀ v, copyObjectProperty None e = OK v → hasOutput v = false)
      by (intros; by eapply IHelems).
    clear IHelems Hvalue.
    induction Hvs as [|e v' elems' vs' He _ IH]; constructor.
    + eapply Hall; [left|done].
    + apply IH. intros e0 He0. apply Hall. by right.
  - intros Hv. apply copyComputed_OK in Hv as (comp & zero & _ & Hzero & ->).
    rewrite isOutput_nil. simpl. by eapply zeroValue_no_output.
  - by intros [= <-].
  - done.
Qed.

(** The resource context only matters for a computed-typed value. *)
Lemma copyObjectProperty_context (resobj : option addr) (obj : rt.Object) :
  symbols.Computed (rt.Type_ obj) = false →
  copyObjectProperty resobj obj = copyObjectProperty None obj.
Proof.
  intros Ht. rewrite !copyObjectProperty_eq. simpl.
  destruct (predef.IsResourceType (rt.Type_ obj)); [done|].
  by destruct (rt.Type_ obj) as [[]| | | | | |].
Qed.

Lemma hasOutput_nested (v : PropertyValue) :
  hasOutput v = false → hasNestedOutput v = false.
Proof. by destruct v. Qed.

(** Whatever the context, an output can only be the root of what
    [copyObjectProperty] returns. *)
Lemma copyObjectProperty_no_nested_output (resobj : option addr)
    (obj : rt.Object) (v : PropertyValue) :
  copyObjectProperty resobj obj = OK v → hasNestedOutput v = false.
Proof.
  destruct (symbols.Computed (rt.Type_ obj)) eqn:Hcomp.
  - destruct (rt.Type_ obj) as [| | | |elem| |] eqn:Ht; try done.
    rewrite (copyObjectProperty_computed _ _ _ Ht). intros Hv.
    apply copyComputed_OK in Hv as (comp & zero & _ & Hzero & ->).
    apply zeroValue_no_output in Hzero.
    by destruct (isOutput resobj comp).
  - rewrite copyObjectProperty_context by done. intros Hv.
    by apply hasOutput_nested, (copyObjectProperty_nil_no_output obj).
Qed.

Lemma isContainer_copy (o : rt.Object) :
  isContainer o = true →
  copyObjectProperty None o
  = (result ← copyObjectProperties None (rt.properties o);
     OK (NewObjectProperty result)).
Proof.
  unfold isContainer. intros [Hres Ht]%andb_true_iff.
  apply negb_true_iff in Hres.
  rewrite copyObjectProperty_eq. simpl. rewrite Hres. unfold copyObject.
  by destruct (rt.Type_ o) as [[]| | | | | |].
Qed.

Lemma isArray_copy (o : rt.Object) (elems : list rt.Object) :
  isArray o = true → rt.value o = rt.ArrayV elems →
  copyObjectProperty None o
  = (result ← mapM (copyObjectProperty None) elems;
     OK (NewArrayProperty result)).
Proof.
  unfold isArray. intros Ht Hvalue. rewrite copyObjectProperty_eq. simpl.
  destruct (rt.Type_ o) as [| | | | | |] eqn:Ht'; try done. simpl.
  unfold rt.ArrayValue. by rewrite Hvalue.
Qed.

(** With a nil context, the capture of what is found down a path in a live
    object is found down the same path in the capture of the object. *)
Lemma copyObjectProperty_at (path : list Step) (o q : rt.Object)
    (v : PropertyValue) :
  copyObjectProperty None o = OK v →
  liveAt o path = Some q →
  ∃ w, copyObjectProperty None q = OK w ∧ capturedAt v path = Some w.
Proof.
  revert o v. induction path as [|[k|i] path IH]; intros o v Hv; simpl.
  - intros [= <-]. by exists v.
  - destruct (isContainer o) eqn:Hcontainer; [|done].
    rewrite isContainer_copy in Hv by done.
    destruct (copyObjectProperties None (rt.properties o)) as [m|] eqn:Hm;
      simpl in Hv; [|done].
    injection Hv as <-.
    pose proof (copyObjectProperties_lookup _ _ _ Hm k) as Hk.
    destruct (rt.properties o !! k) as [p|]; simpl; [|done].
    destruct Hk as (w0 & Hw0 & ->). simpl. by apply IH.
  - destruct (isArray o) eqn:Harray; [|done].
    destruct (rt.value o) as [| | | |elems|] eqn:Hvalue; try done.
    rewrite (isArray_copy o elems) in Hv by done.
    destruct (mapM (copyObjectProperty None) elems) as [vs|] eqn:Hvs;
      simpl in Hv; [|done].
    injection Hv as <-. apply mapM_OK in Hvs.
    destruct (elems !! i) as [e|] eqn:He; simpl; [|done].
    destruct (Forall2_lookup_l _ _ _ _ _ Hvs He) as (w0 & -> & Hw0).
    simpl. by apply IH.
Qed.

Lemma liveAt_not_computed (o q : rt.Object) (path : list Step) :
  path ≠ [] → liveAt o path = Some q →
  symbols.Computed (rt.Type_ o) = false.
Proof.
  destruct path as [|[k|i] path]; [done|..]; intros _; simpl.
  - unfold isContainer. destruct (rt.Type_ o) as [[]| | | | | |]; simpl;
      try done; by rewrite andb_false_r.
  - unfold isArray. by destruct (rt.Type_ o).
Qed.

(** C10. In the capture of a resource, whatever is found below a top-level
    property, down a path of array elements, map entries, fields of object
    literals and of class instances, is captured at the same place with a
    nil resource context; there a computed-typed value is captured as a
    computed value around the zero value of its element kind, also when its
    computation has no free expression and the resource being captured as
    its single source.  So no output occurs below the root of a top-level
    property, and a top-level property that is not itself computed is
    captured as it is with a nil context. *)
Theorem nested_computed_is_never_output (r : Object) (m : PropertyMap) :
  CopyProperties r = OK m →
  (∀ k v, m !! k = Some v → hasNestedOutput v = false) ∧
  (∀ k p, rt.GetProperty (Obj r) k = Some p →
     symbols.Computed (rt.Type_ p) = false →
     ∃ v, copyObjectProperty None p = OK v ∧ hasOutput v = false ∧
          m !! k = Some v) ∧
  (∀ obj elem comp zero,
     rt.Type_ obj = symbols.ComputedType elem →
     rt.ComputedValue obj = OK comp →
     selfDerived (Some (ptr r)) comp →
     zeroValue elem = Some zero →
     copyObjectProperty None obj = OK (MakeComputed zero)) ∧
  (∀ k p path q,
     rt.GetProperty (Obj r) k = Some p →
     path ≠ [] → liveAt p path = Some q →
     ∃ v w, m !! k = Some v ∧ capturedAt v path = Some w ∧
            copyObjectProperty None q = OK w ∧
            ∀ elem comp zero,
              rt.Type_ q = symbols.ComputedType elem →
              rt.ComputedValue q = OK comp →
              zeroValue elem = Some zero →
              w = MakeComputed zero).
Proof.
  intros Hm. split; [|split; [|split]].
  - intros k v Hk. unfold CopyProperties, copyObject in Hm.
    pose proof (copyObjectProperties_lookup _ _ _ Hm k) as Hlook.
    destruct (rt.properties (Obj r) !! k) as [p|]; [|congruence].
    destruct Hlook as (v' & Hv' & Hk').
    assert (v' = v) as -> by congruence.
    by eapply copyObjectProperty_no_nested_output.
  - intros k p Hp Hplain. unfold CopyProperties, copyObject in Hm.
    pose proof (copyObjectProperties_lookup _ _ _ Hm k) as Hlook.
    unfold rt.GetProperty in Hp. rewrite Hp in Hlook.
    destruct Hlook as (v & Hv & Hk).
    rewrite copyObjectProperty_context in Hv by done.
    exists v. split; [done|]. split; [|done].
    by eapply copyObjectProperty_nil_no_output.
  - intros obj elem comp zero Ht Hcomp _ Hzero.
    rewrite (copyObjectProperty_computed _ _ _ Ht).
    unfold copyComputed. rewrite Hcomp. simpl. rewrite isOutput_nil.
    destruct elem as [[]| | | | | |]; simpl in Hzero; try done;
      by injection Hzero as <-.
  - intros k p path q Hp Hpath Hq. unfold CopyProperties, copyObject in Hm.
    pose proof (copyObjectProperties_lookup _ _ _ Hm k) as Hlook.
    unfold rt.GetProperty in Hp. rewrite Hp in Hlook.
    destruct Hlook as (v & Hv & Hk).
    rewrite copyObjectProperty_context in Hv
      by by eapply liveAt_not_computed.
    destruct (copyObjectProperty_at path p q v Hv Hq) as (w & Hw & Hat).
    exists v, w. split; [done|]. split; [done|]. split; [done|].
    intros elem comp zero Ht Hcomp Hzero.
    rewrite (copyObjectProperty_computed _ _ _ Ht) in Hw.
    unfold copyComputed in Hw. rewrite Hcomp in Hw. simpl in Hw.
    rewrite isOutput_nil in Hw.
    destruct elem as [[]| | | | | |]; simpl in Hzero, Hw; try done;
      injection Hzero as <-; by injection Hw as <-.
Qed.

Lemma nested_computed_is_never_output_witness :
  hasNestedOutput
    (NewObjectProperty {[ "ip" := MakeComputed (NewStringProperty "") ]})
    = false ∧
  copyObjectProperty None computedString
    = OK (MakeComputed (NewStringProperty "")) ∧
  (∃ v, selfReferringCaptured !! "net" = Some v ∧
        capturedAt v [Key "ip"] = Some (MakeComputed (NewStringProperty ""))) ∧
  (∃ v, selfReferringCaptured !! "ports" = Some v ∧
        capturedAt v [Index 0] = Some (MakeComputed (NewStringProperty ""))).
Proof.
  destruct (nested_computed_is_never_output selfReferring
              selfReferringCaptured) as (Hnested & _ & Hnil & Hat).
  { vm_compute. reflexivity. }
  split; [|split; [|split]].
  - apply (Hnested "net"). vm_compute. reflexivity.
  - eapply (Hnil computedString); try reflexivity.
    split; [reflexivity|]. by exists 1%positive.
  - destruct (Hat "net"
                (rt.MkObject types.Object rt.NoValue {[ "ip" := computedString ]})
                [Key "ip"] computedString)
      as (v & w & Hv & Hw & _ & Hcomputed);
      [vm_compute; reflexivity|discriminate|vm_compute; reflexivity|].
    exists v. split; [exact Hv|]. rewrite Hw. f_equal.
    eapply Hcomputed; reflexivity.
  - destruct (Hat "ports"
                (rt.NewArrayObject (symbols.ComputedType types.String)
                   [computedString])
                [Index 0] computedString)
      as (v & w & Hv & Hw & _ & Hcomputed);
      [vm_compute; reflexivity|discriminate|vm_compute; reflexivity|].
    exists v. split; [exact Hv|]. rewrite Hw. f_equal.
    eapply Hcomputed; reflexivity.
Defined.

(** ** Hydration *)

Lemma PropertyObj_InitProperty (o : rt.Object) (k : string) :
  rt.properties (rt.InitProperty o k) !! k = Some (rt.PropertyObj o k).
Proof.
  unfold rt.InitProperty, rt.PropertyObj.
  destruct (rt.properties o !! k) as [p|] eqn:Hk; simpl; [done|].
  apply lookup_insert_eq.
Qed.

Lemma InitProperty_other (o : rt.Object) (k k' : string) :
  k' ≠ k → rt.properties (rt.InitProperty o k) !! k' = rt.properties o !! k'.
Proof.
  intros Hne. unfold rt.InitProperty.
  destruct (rt.properties o !! k); simpl; [done|]. by apply lookup_insert_ne.
Qed.

Lemma InitProperty_set (o : rt.Object) (k : string) :
  destinationNull o k = false → rt.InitProperty o k = o.
Proof.
  unfold destinationNull, rt.InitProperty, rt.PropertyObj.
  by destruct (rt.properties o !! k).
Qed.

Lemma InitProperty_value (o : rt.Object) (k : string) :
  rt.value (rt.InitProperty o k) = rt.value o.
Proof. unfold rt.InitProperty. by destruct (rt.properties o !! k). Qed.

Lemma destinationNull_lookup (o o' : rt.Object) (k : string) :
  rt.properties o' !! k = rt.properties o !! k →
  destinationNull o' k = destinationNull o k.
Proof. unfold destinationNull, rt.PropertyObj. by intros ->. Qed.

(** One entry: the type and the constant are kept, the other slots are kept,
    and the slot of the entry is written exactly when it was null. *)
Lemma setRuntimeProperty_OK (create : PropertyValue → result rt.Object)
    (k : string) (v : PropertyValue) (o o' : rt.Object) :
  setRuntimeProperty create k v (OK o) = OK o' →
  rt.t o' = rt.t o ∧ rt.value o' = rt.value o ∧
  (∀ k', k' ≠ k → rt.properties o' !! k' = rt.properties o !! k') ∧
  (if destinationNull o k
   then ∃ val, create v = OK val ∧ rt.properties o' !! k = Some val
   else rt.properties o' !! k = rt.properties o !! k).
Proof.
  unfold setRuntimeProperty. simpl.
  replace (rt.IsNull (rt.PropertyObj (rt.InitProperty o k) k))
    with (destinationNull o k).
  2:{ unfold destinationNull. f_equal. unfold rt.PropertyObj at 2.
      by rewrite PropertyObj_InitProperty. }
  destruct (destinationNull o k) eqn:Hnull.
  - destruct (create v) as [val|]; simpl; [|done]. intros [= <-]. simpl.
    rewrite InitProperty_type, InitProperty_value.
    repeat split; [|exists val; split; [done|apply lookup_insert_eq]].
    intros k' Hne. rewrite lookup_insert_ne by done.
    by apply InitProperty_other.
  - intros [= <-]. rewrite (InitProperty_set _ _ Hnull). done.
Qed.

Lemma setRuntimeProperty_fail (create : PropertyValue → result rt.Object)
    (k : string) (v : PropertyValue) (o : rt.Object) :
  setRuntimeProperty create k v (OK o) = InvariantViolation ↔
  destinationNull o k = true ∧ create v = InvariantViolation.
Proof.
  unfold setRuntimeProperty. simpl.
  replace (rt.IsNull (rt.PropertyObj (rt.InitProperty o k) k))
    with (destinationNull o k).
  2:{ unfold destinationNull. f_equal. unfold rt.PropertyObj at 2.
      by rewrite PropertyObj_InitProperty. }
  destruct (destinationNull o k); [|by split; [|intros [? _]]].
  destruct (create v); simpl; by split; [|intros [_ ?]].
Qed.

(** The entries of a list with distinct keys, taken from the last to the
    first. *)
Lemma setRuntimeProperty_foldr (l : list (string * PropertyValue))
    (o o' : rt.Object) :
  NoDup l.*1 →
  foldr (uncurry (setRuntimeProperty createRuntimeProperty)) (OK o) l = OK o' →
  rt.t o' = rt.t o ∧ rt.value o' = rt.value o ∧
  (∀ k, k ∉ l.*1 → rt.properties o' !! k = rt.properties o !! k) ∧
  (∀ k v, (k, v) ∈ l →
     if destinationNull o k
     then ∃ val, createRuntimeProperty v = OK val ∧
                 rt.properties o' !! k = Some val
     else rt.properties o' !! k = rt.properties o !! k).
Proof.
  revert o'. induction l as [|[k v] l IH]; simpl; intros o' Hdup.
  - intros [= <-]. repeat split; try done.
    intros k v Hin. by apply elem_of_nil in Hin.
  - apply NoDup_cons in Hdup as [Hk Hdup].
    destruct (foldr _ _ l) as [o1|] eqn:Hl; [|done].
    destruct (IH o1 Hdup eq_refl) as (Ht1 & Hv1 & Hout1 & Hin1).
    intros Hstep.
    apply setRuntimeProperty_OK in Hstep as (Ht & Hv & Hother & Hslot).
    rewrite (destinationNull_lookup o o1 k), (Hout1 k Hk) in Hslot
      by auto.
    split; [congruence|]. split; [congruence|]. split.
    + intros k' Hk'. apply not_elem_of_cons in Hk' as [Hne Hk'].
      rewrite Hother by done. by apply Hout1.
    + intros k' v' Hin. apply elem_of_cons in Hin as [[= -> ->]|Hin].
      * done.
      * assert (k' ≠ k) as Hne.
        { intros ->. apply Hk. apply list_elem_of_fmap. by exists (k, v'). }
        rewrite Hother by done. by apply Hin1.
Qed.

Lemma setRuntimeProperty_foldr_total (l : list (string * PropertyValue))
    (o : rt.Object) :
  NoDup l.*1 →
  is_OK (foldr (uncurry (setRuntimeProperty createRuntimeProperty)) (OK o) l) ↔
  ∀ k v, (k, v) ∈ l → destinationNull o k = true →
         is_OK (createRuntimeProperty v).
Proof.
  induction l as [|[k v] l IH]; simpl; intros Hdup.
  - split; [|by eexists]. intros _ k v Hin. by apply elem_of_nil in Hin.
  - apply NoDup_cons in Hdup as [Hk Hdup]. specialize (IH Hdup).
    destruct (foldr _ _ l) as [o1|] eqn:Hl.
    + destruct (setRuntimeProperty_foldr l o o1 Hdup Hl) as (_ & _ & Hout & _).
      assert (Hnull : destinationNull o1 k = destinationNull o k)
        by (apply destinationNull_lookup, Hout, Hk).
      split.
      * intros [o' Hstep] k' v' Hin Hdest.
        apply elem_of_cons in Hin as [[= -> ->]|Hin].
        -- apply setRuntimeProperty_OK in Hstep as (_ & _ & _ & Hslot).
           rewrite Hnull, Hdest in Hslot. destruct Hslot as (val & ? & _).
           by exists val.
        -- apply (proj1 IH (ex_intro _ o1 eq_refl) k' v' Hin Hdest).
      * intros Hall.
        destruct (setRuntimeProperty createRuntimeProperty k v (OK o1))
          as [o'|] eqn:Hstep; [by eexists|].
        apply setRuntimeProperty_fail in Hstep as [Hdest Hfail].
        rewrite Hnull in Hdest.
        destruct (Hall k v) as [val Hval]; [left|done|]. congruence.
    + split; [by intros [? ?]|]. intros Hall.
      destruct (proj2 IH) as [? ?]; [|done].
      intros k' v' Hin. apply Hall. by right.
Qed.

Lemma map_to_list_keys (props : PropertyMap) (k : string) :
  k ∈ (map_to_list props).*1 ↔ is_Some (props !! k).
Proof.
  rewrite list_elem_of_fmap. split.
  - intros ([k' v] & -> & Hin). apply elem_of_map_to_list in Hin. by exists v.
  - intros [v Hv]. exists (k, v). split; [done|]. by apply elem_of_map_to_list.
Qed.

(** The order in which the entries are taken does not matter: Go's range
    over the map may take any. *)
Lemma setRuntimeProperties_order (o : rt.Object) (props : PropertyMap)
    (l : list (string * PropertyValue)) :
  l ≡ₚ map_to_list props →
  foldr (uncurry (setRuntimeProperty createRuntimeProperty)) (OK o) l
  = setRuntimeProperties o props.
Proof.
  intros Hperm. unfold setRuntimeProperties. rewrite map_fold_foldr.
  pose proof (NoDup_fst_map_to_list props) as Hdup2.
  assert (Hdup1 : NoDup l.*1) by by rewrite Hperm.
  pose proof (setRuntimeProperty_foldr_total l o Hdup1) as Htot1.
  pose proof (setRuntimeProperty_foldr_total _ o Hdup2) as Htot2.
  assert (Hsame : ∀ k v, (k, v) ∈ l ↔ (k, v) ∈ map_to_list props)
    by (intros; by rewrite Hperm).
  destruct (foldr _ _ l) as [o1|] eqn:H1;
    destruct (foldr _ _ (map_to_list props)) as [o2|] eqn:H2.
  - destruct (setRuntimeProperty_foldr _ _ _ Hdup1 H1)
      as (Ht1 & Hv1 & Hout1 & Hin1).
    destruct (setRuntimeProperty_foldr _ _ _ Hdup2 H2)
      as (Ht2 & Hv2 & Hout2 & Hin2).
    f_equal. destruct o1 as [t1 v1 p1], o2 as [t2 v2 p2]. simpl in *.
    f_equal; [congruence..|]. apply map_eq. intros k.
    destruct (props !! k) as [v|] eqn:Hk.
    + apply elem_of_map_to_list in Hk.
      specialize (Hin2 k v Hk). apply Hsame in Hk. specialize (Hin1 k v Hk).
      destruct (destinationNull o k); [|congruence].
      destruct Hin1 as (val1 & ? & ->), Hin2 as (val2 & ? & ->). congruence.
    + rewrite Hout1, Hout2; [done|..].
      * rewrite map_to_list_keys, Hk. by intros [? [=]].
      * rewrite Hperm, map_to_list_keys, Hk. by intros [? [=]].
  - destruct (proj2 Htot2) as [? [=]]. intros k v Hin.
    apply (proj1 Htot1); [by eexists|by apply Hsame].
  - destruct (proj2 Htot1) as [? [=]]. intros k v Hin.
    apply (proj1 Htot2); [by eexists|by apply Hsame].
  - done.
Qed.

(** Hydration succeeds exactly when every value bound for an unset
    destination can be turned into a runtime object. *)
Lemma setRuntimeProperties_total (obj : rt.Object) (props : PropertyMap) :
  is_OK (setRuntimeProperties obj props) ↔
  ∀ k v, props !! k = Some v → destinationNull obj k = true →
         is_OK (createRuntimeProperty v).
Proof.
  unfold setRuntimeProperties. rewrite map_fold_foldr.
  rewrite (setRuntimeProperty_foldr_total _ obj (NoDup_fst_map_to_list props)).
  split; intros Hall k v Hk; apply Hall; by apply elem_of_map_to_list.
Qed.

Lemma setRuntimeProperties_lookup (obj obj' : rt.Object) (props : PropertyMap) :
  setRuntimeProperties obj props = OK obj' →
  ∀ k, match props !! k with
       | Some v =>
           if destinationNull obj k
           then ∃ val, createRuntimeProperty v = OK val ∧
                       rt.GetProperty obj' k = Some val
           else rt.GetProperty obj' k = rt.GetProperty obj k
       | None => rt.GetProperty obj' k = rt.GetProperty obj k
       end.
Proof.
  unfold setRuntimeProperties, rt.GetProperty. rewrite map_fold_foldr.
  pose proof (NoDup_fst_map_to_list props) as Hdup. intros Hset k.
  destruct (setRuntimeProperty_foldr _ _ _ Hdup Hset) as (_ & _ & Hout & Hin).
  destruct (props !! k) as [v|] eqn:Hk.
  - apply Hin. by apply elem_of_map_to_list.
  - apply Hout. rewrite map_to_list_keys, Hk. by intros [? [=]].
Qed.

Lemma setRuntimeProperties_type (obj obj' : rt.Object) (props : PropertyMap) :
  setRuntimeProperties obj props = OK obj' → rt.t obj' = rt.t obj.
Proof.
  unfold setRuntimeProperties. rewrite map_fold_foldr. intros Hset.
  by destruct (setRuntimeProperty_foldr _ _ _
                 (NoDup_fst_map_to_list props) Hset) as (? & _).
Qed.

(** C4. [setRuntimeProperties] writes the value of an entry onto its
    destination exactly when the destination is unset, that is missing or
    null; a destination that holds a value is left as it is and the incoming
    value is dropped without being looked at, so that only the values for
    unset destinations can make the call fail; the properties that the map
    does not mention are left as they are. *)
Theorem setRuntimeProperties_fills_unset_only (obj : rt.Object)
    (props : PropertyMap) :
  (is_OK (setRuntimeProperties obj props) ↔
   ∀ k v, props !! k = Some v → destinationNull obj k = true →
          is_OK (createRuntimeProperty v)) ∧
  (∀ obj', setRuntimeProperties obj props = OK obj' →
     ∀ k, match props !! k with
          | Some v =>
              if destinationNull obj k
              then ∃ val, createRuntimeProperty v = OK val ∧
                          rt.GetProperty obj' k = Some val
              else rt.GetProperty obj' k = rt.GetProperty obj k
          | None => rt.GetProperty obj' k = rt.GetProperty obj k
          end).
Proof.
  split; [apply setRuntimeProperties_total|].
  intros obj'. apply setRuntimeProperties_lookup.
Qed.

Lemma setRuntimeProperties_fills_unset_only_witness :
  setRuntimeProperties halfSet incoming = OK halfSetHydrated ∧
  rt.GetProperty halfSetHydrated "name" = rt.GetProperty halfSet "name" ∧
  (∃ val, createRuntimeProperty (NewStringProperty "us-west-2") = OK val ∧
          rt.GetProperty halfSetHydrated "zone" = Some val).
Proof.
  assert (Hset : setRuntimeProperties halfSet incoming = OK halfSetHydrated)
    by (vm_compute; reflexivity).
  destruct (setRuntimeProperties_fills_unset_only halfSet incoming)
    as [_ Hslots].
  split; [exact Hset|]. split.
  - exact (Hslots halfSetHydrated Hset "name").
  - exact (Hslots halfSetHydrated Hset "zone").
Defined.

(** *** Which values can be hydrated *)

Lemma PropertyValue_size_entry (m : PropertyMap) (k : string) (v : PropertyValue) :
  m !! k = Some v → PropertyValue_size v < PropertyValue_size (NewObjectProperty m).
Proof.
  intros Hk. simpl.
  rewrite (map_fold_delete_L _ _ k v m); [lia| |done]. intros. lia.
Qed.

Lemma PropertyValue_size_element (vs : list PropertyValue) (v : PropertyValue) :
  v ∈ vs → PropertyValue_size v < PropertyValue_size (NewArrayProperty vs).
Proof.
  intros Hv. simpl.
  assert (PropertyValue_size v ≤ foldr (λ v n, PropertyValue_size v + n) 0 vs);
    [|lia].
  induction Hv as [v vs|v v' vs Hv IH]; simpl; lia.
Qed.

Lemma PropertyValue_nested_ind (P : PropertyValue → Prop) :
  (∀ v,
     (∀ vs e, v = NewArrayProperty vs → e ∈ vs → P e) →
     (∀ m k e, v = NewObjectProperty m → m !! k = Some e → P e) →
     P v) →
  ∀ v, P v.
Proof.
  intros Hstep v. remember (PropertyValue_size v) as n eqn:Hn. revert v Hn.
  induction n as [n IH] using lt_wf_ind. intros v ->. apply Hstep.
  - intros vs e -> He. eapply IH; [|done]. by apply PropertyValue_size_element.
  - intros m k e -> He. eapply IH; [|done]. by eapply PropertyValue_size_entry.
Qed.

Lemma mapM_is_OK {A B} (f : A → result B) (l : list A) :
  is_OK (mapM f l) ↔ Forall (λ x, is_OK (f x)) l.
Proof.
  induction l as [|x l IH]; simpl.
  - split; [constructor|by eexists].
  - rewrite Forall_cons, <- IH. destruct (f x) as [y|]; simpl.
    + destruct (mapM f l) as [k|]; simpl.
      * split; [|by eexists]. intros _. split; by eexists.
      * split; [by intros [? [=]]|]. by intros [_ [? [=]]].
    + split; [by intros [? [=]]|]. by intros [[? [=]] _].
Qed.

(** The equation of [createRuntimeProperty] for an object, in the shape of
    the source. *)
Lemma createRuntimeProperty_object (props : PropertyMap) :
  createRuntimeProperty (NewObjectProperty props)
  = setRuntimeProperties (rt.NewObject types.Dynamic) props.
Proof. reflexivity. Qed.

(** A property value can be turned into a runtime object exactly when it is
    fully resolved. *)
Lemma createRuntimeProperty_total (v : PropertyValue) :
  is_OK (createRuntimeProperty v) ↔ hasUnknown v = false.
Proof.
  induction v as [v IHarray IHobject] using PropertyValue_nested_ind.
  destruct v as [| | | |vs|m| |]; simpl;
    try (split; [done|by eexists]); try (split; [by intros [? [=]]|done]).
  - change (existsb hasUnknown vs) with (hasUnknown (NewArrayProperty vs)).
    transitivity (is_OK (mapM createRuntimeProperty vs)).
    { destruct (mapM createRuntimeProperty vs); simpl;
        split; intros [? [=]]; by eexists. }
    rewrite mapM_is_OK. simpl.
    assert (Hall : ∀ e, e ∈ vs →
              (is_OK (createRuntimeProperty e) ↔ hasUnknown e = false))
      by (intros; by eapply IHarray).
    clear IHarray IHobject.
    induction vs as [|e vs IH]; simpl; [split; [done|constructor]|].
    rewrite Forall_cons, orb_false_iff, (Hall e) by left.
    rewrite IH; [done|]. intros e' He'. apply Hall. by right.
  - change (map_fold _ (OK (rt.NewObject types.Dynamic)) m)
      with (setRuntimeProperties (rt.NewObject types.Dynamic) m).
    rewrite setRuntimeProperties_total, map_fold_orb_false.
    split; intros Hall k e Hk.
    + eapply IHobject; [done..|]. by eapply Hall.
    + intros _. eapply IHobject; [done..|]. by eapply Hall.
Qed.

(** ** [Update] *)

Lemma SetID_destination (r : Object) (id : ID_t) (k : string) :
  let o := rt.SetProperty (rt.InitProperty (obj r) IDProperty) IDProperty
             (rt.NewStringObject id) in
  destinationNull o k =
    if decide (k = IDProperty) then false else destinationNull (obj r) k.
Proof.
  simpl. unfold destinationNull, rt.PropertyObj, rt.SetProperty. simpl.
  destruct (decide (k = IDProperty)) as [->|Hne].
  - by rewrite lookup_insert_eq.
  - rewrite lookup_insert_ne by done. by rewrite InitProperty_other.
Qed.

(** C1, as amended.  [Update] on a resource object without a URN is an
    invariant violation, and so is [Update] with nil outputs.  On a resource
    object with a URN and an ID that is
    not set, whose live object is captured to [inputs], and with outputs that
    are not nil and hold a fully resolved value for every unset property
    they name other than the ID, [Update] returns the state made of the type
    and the URN of the resource, the supplied ID, [inputs] as captured before
    any write, and the supplied outputs as they are; afterwards [HasID] is
    true and [ID] is the supplied ID. *)
Theorem Update_snapshot (r : Object) (id : ID_t) (outputs : PropertyMap) :
  (∀ outputs', HasURN r = false →
     Update r id outputs' = InvariantViolation) ∧
  Update r id None = InvariantViolation ∧
  (∀ inputs,
     IsResourceObject (Obj r) = true →
     HasURN r = true →
     idUnset (Obj r) →
     CopyProperties r = OK inputs →
     (∀ k v, outputs !! k = Some v → k ≠ IDProperty →
             destinationNull (Obj r) k = true → hasUnknown v = false) →
     ∃ r', Update r id (Some outputs)
             = OK (r', NewState (Type_ r) (URN r) id inputs (Some outputs)) ∧
           HasID r' = OK true ∧ ID r' = OK id).
Proof.
  split; [|split].
  { intros outputs' Hurn. unfold Update. by rewrite Hurn. }
  { unfold Update. destruct (contract.Assert (HasURN r)); simpl; [|done].
    destruct (CopyProperties r); simpl; [|done].
    by destruct (SetID r id). }
  intros inputs Hres Hurn Hunset Hinputs Hresolved.
  unfold Update. rewrite Hurn, Hinputs. simpl.
  rewrite (SetID_unset r id Hunset). simpl.
  unfold SetProperties, Obj. simpl.
  set (o1 := rt.SetProperty (rt.InitProperty (obj r) IDProperty) IDProperty
               (rt.NewStringObject id)).
  destruct (proj2 (setRuntimeProperties_total o1 outputs)) as [o2 Hset].
  { intros k v Hk. unfold o1. rewrite SetID_destination.
    destruct (decide (k = IDProperty)); [done|].
    intros Hnull. apply createRuntimeProperty_total. by eapply Hresolved. }
  rewrite Hset. simpl.
  assert (Ht : rt.t o2 = rt.t (obj r)).
  { rewrite (setRuntimeProperties_type _ _ _ Hset). unfold o1. simpl.
    apply InitProperty_type. }
  eexists. split.
  - unfold Type_, URN, rt.Type_. simpl. by rewrite Ht.
  - apply ID_of_string_slot; simpl.
    + unfold IsResourceObject, rt.Type_ in *. by rewrite Ht.
    + pose proof (setRuntimeProperties_lookup _ _ _ Hset IDProperty) as Hid.
      unfold o1 in Hid. rewrite SetID_destination in Hid.
      rewrite decide_True in Hid by done.
      rewrite SetProperty_lookup in Hid. by destruct (outputs !! IDProperty).
Qed.

Lemma Update_snapshot_witness :
  ∃ r', Update plannedServer "i-1" (Some incoming)
          = OK (r', NewState "aws:ec2/instance:Instance"
                      "urn:pulumi:dev::web::aws:ec2/instance:Instance::server"
                      "i-1" plannedServerInputs (Some incoming)) ∧
        HasID r' = OK true ∧ ID r' = OK "i-1".
Proof.
  destruct (Update_snapshot plannedServer "i-1" incoming) as (_ & _ & Hstate).
  apply (Hstate plannedServerInputs).
  - reflexivity.
  - reflexivity.
  - exact I.
  - vm_compute. reflexivity.
  - intros k v Hk _ Hnull. apply elem_of_map_to_list in Hk.
    vm_compute map_to_list in Hk.
    rewrite !elem_of_cons, elem_of_nil in Hk.
    destruct Hk as [[= -> ->]|[[= -> ->]|[[= -> ->]|[]]]];
      [reflexivity|by vm_compute in Hnull|reflexivity].
Defined.

(** C1 as stated fails: this resource object has a URN and no ID, and its
    capture succeeds, yet [Update] with an output that is not known yet
    returns no state. *)
Lemma Update_unknown_output_fails :
  IsResourceObject (Obj plannedServer) = true ∧
  HasURN plannedServer = true ∧
  idUnset (Obj plannedServer) ∧
  CopyProperties plannedServer = OK plannedServerInputs ∧
  Update plannedServer "i-1" (Some unknownEndpoint) = InvariantViolation.
Proof.
  split; [reflexivity|]. split; [reflexivity|]. split; [exact I|].
  split; vm_compute; reflexivity.
Qed.

(** ** Stack import *)

Lemma multierror_Append_all (result : option (list string)) (msgs : list string) :
  foldl (λ result msg, Some (stack_import.multierror_Append result msg))
    result msgs =
    match msgs with
    | [] => result
    | _ => Some (default [] result ++ msgs)
    end.
Proof.
  revert result. induction msgs as [|msg msgs IH]; intros result; [done|].
  simpl. rewrite IH. unfold stack_import.multierror_Append. simpl.
  destruct msgs; [done|]. by rewrite <- app_assoc.
Qed.

(** The loop over the resources: under [--force] one warning for each
    mismatch and no error; otherwise no warning and one error for each. *)
Lemma checkResource_foldl (Stack : string → string) (force : bool)
    (stackName : string) (l : list stack_import.ResourceState)
    (warnings : list stack_import.Warning) (result : option (list string)) :
  foldl (stack_import.checkResource Stack force stackName) (warnings, result) l =
    let bad := List.filter (stack_import.mismatch Stack stackName) l in
    if force
    then (warnings ++ (mismatchWarning Stack stackName <$> bad), result)
    else (warnings,
          foldl (λ result msg, Some (stack_import.multierror_Append result msg))
            result
            (stack_import.mismatchMessage Stack stackName <$> bad)).
Proof.
  revert warnings result. induction l as [|res l IH]; intros warnings result.
  - simpl. destruct force; [by rewrite app_nil_r|done].
  - simpl. destruct (stack_import.mismatch Stack stackName res) eqn:Hbad.
    + destruct force; rewrite IH; simpl; [|done].
      by rewrite <- app_assoc.
    + apply IH.
Qed.

(** The command, by cases. *)
Lemma run_cases (Stack : string → string)
    (importDeployment : stack_import.Snapshot → option string) (force : bool)
    (stackName : string) (snapshot : stack_import.Snapshot) :
  stack_import.run Stack importDeployment force stackName snapshot =
    let bad := mismatched Stack stackName snapshot in
    let pending :=
      stack_import.pendingMessage <$> stack_import.PendingOperations snapshot in
    if force
    then ((mismatchWarning Stack stackName <$> bad) ++ pending,
          importOutcome (importDeployment (cleared snapshot)))
    else match bad with
         | [] => (pending, importOutcome (importDeployment (cleared snapshot)))
         | _ => ([], stack_import.Failed
                       ((stack_import.mismatchMessage Stack stackName <$> bad)
                        ++ [stack_import.closingMessage]))
         end.
Proof.
  unfold stack_import.run, stack_import.checkResources.
  rewrite checkResource_foldl. unfold mismatched. simpl.
  destruct force; simpl; [done|].
  rewrite multierror_Append_all.
  destruct (List.filter _ _) as [|res bad]; simpl; done.
Qed.



(** C9. Whenever the command gets to import the snapshot, that is under
    [--force] or when no resource belongs to another stack, it issues one
    warning for each pending operation of the snapshot, after the warnings
    about mismatches, and what it serializes and imports is the snapshot
    with the same resources and no pending operation. *)
Theorem pending_operations_are_cleared (Stack : string → string)
    (importDeployment : stack_import.Snapshot → option string) (force : bool)
    (stackName : string) (snapshot : stack_import.Snapshot) :
  force = true ∨ mismatched Stack stackName snapshot = [] →
  let pending :=
    stack_import.pendingMessage <$> stack_import.PendingOperations snapshot in
  stack_import.run Stack importDeployment force stackName snapshot =
    ((if force
      then mismatchWarning Stack stackName <$> mismatched Stack stackName snapshot
      else []) ++ pending,
     importOutcome (importDeployment (cleared snapshot))) ∧
  length pending = length (stack_import.PendingOperations snapshot) ∧
  stack_import.PendingOperations (cleared snapshot) = [] ∧
  stack_import.Resources (cleared snapshot) = stack_import.Resources snapshot.
Proof.
  intros Hgo. simpl. rewrite run_cases, length_fmap. simpl.
  split; [|done]. destruct force; [done|].
  destruct Hgo as [Hforce|Hnone]; [done|]. by rewrite Hnone.
Qed.

Lemma pending_operations_are_cleared_witness :
  stack_import.run stack_import.urnStack strictBackend true "stack-a" exported =
    ([stack_import.Message ""
        "resource 'urn:pulumi:stack-b::web::aws:s3/bucket:Bucket::data' is from a different stack (stack-b != stack-a)";
      stack_import.Message
        "urn:pulumi:stack-a::web::aws:ec2/instance:Instance::server"
        "removing pending operation 'creating' on 'urn:pulumi:stack-a::web::aws:ec2/instance:Instance::server' from snapshot"],
     stack_import.ImportSuccessful).
Proof.
  destruct (pending_operations_are_cleared stack_import.urnStack strictBackend
              true "stack-a" exported) as (Hrun & _).
  - left. reflexivity.
  - exact Hrun.
Defined.


(** * Further properties *)

(** ** Capture, as a relation between the live properties and the map *)

Lemma copyLoop_total (get : string → option (result PropertyValue))
    (keys : list string) (acc : PropertyMap) :
  (∀ k, k ∈ keys → ∃ v, get k = Some (OK v)) →
  is_OK (foldl (copyStep get) (OK acc) keys).
Proof.
  revert acc. induction keys as [|k keys IH]; intros acc Hall; simpl.
  - by eexists.
  - destruct (Hall k) as [v Hv]; [left|]. rewrite Hv. simpl.
    apply IH. intros k' Hk'. apply Hall. by right.
Qed.

Lemma captures_unique (resobj : option addr) (props : gmap string rt.Object)
    (m1 m2 : PropertyMap) :
  captures resobj props m1 → captures resobj props m2 → m1 = m2.
Proof.
  intros H1 H2. apply map_eq. intros k. specialize (H1 k). specialize (H2 k).
  destruct (props !! k); [|congruence].
  destruct H1 as (v1 & ? & ->), H2 as (v2 & ? & ->). congruence.
Qed.

(** [copyObjectProperties] returns [m] exactly when [m] is the capture of the
    properties. *)
Lemma copyObjectProperties_captures (resobj : option addr)
    (props : gmap string rt.Object) (m : PropertyMap) :
  copyObjectProperties resobj props = OK m ↔ captures resobj props m.
Proof.
  split; [exact (copyObjectProperties_lookup resobj props m)|]. intros Hcap.
  destruct (copyLoop_total (λ k, copyObjectProperty resobj <$> props !! k)
              (rt.Stable props) ∅) as [m' Hm'].
  { intros k Hk. apply elem_of_Stable in Hk as [o Ho].
    specialize (Hcap k). rewrite Ho in Hcap. destruct Hcap as (v & Hv & _).
    exists v. by rewrite Ho, <- Hv. }
  change (copyObjectProperties resobj props = OK m') in Hm'.
  rewrite Hm'. f_equal.
  eapply captures_unique; [|done].
  exact (copyObjectProperties_lookup resobj props m' Hm').
Qed.

(** ** Hydration followed by capture *)

Lemma mapM_OK_intro {A B} (f : A → result B) (l : list A) (k : list B) :
  Forall2 (λ x y, f x = OK y) l k → mapM f l = OK k.
Proof.
  induction 1 as [|x y l k Hx _ IH]; simpl; [done|].
  rewrite Hx. simpl. rewrite IH. done.
Qed.

Lemma destinationNull_fresh (t : symbols.Type_) (k : string) :
  destinationNull (rt.NewObject t) k = true.
Proof. unfold destinationNull, rt.PropertyObj. simpl. by rewrite lookup_empty. Qed.

(** The runtime object made for a property value is neither a resource nor
    a computed value, and its capture is the property value. *)
Lemma createRuntimeProperty_copy (v : PropertyValue) (o : rt.Object) :
  createRuntimeProperty v = OK o →
  predef.IsResourceType (rt.Type_ o) = false ∧
  symbols.Computed (rt.Type_ o) = false ∧
  copyObjectProperty None o = OK v.
Proof.
  revert o. induction v as [v IHarray IHobject] using PropertyValue_nested_ind.
  intros o. destruct v as [|b|n|s|vs|m|v'|v']; simpl;
    try (intros [= <-]; by rewrite copyObjectProperty_eq); try done.
  - destruct (mapM createRuntimeProperty vs) as [os|] eqn:Hos; simpl; [|done].
    intros [= <-]. split; [done|]. split; [done|].
    rewrite copyObjectProperty_eq. simpl.
    rewrite (mapM_OK_intro (copyObjectProperty None) os vs); [done|].
    apply mapM_OK in Hos.
    assert (Hall : ∀ e, e ∈ vs → ∀ o, createRuntimeProperty e = OK o →
                     copyObjectProperty None o = OK e)
      by (intros e He o' Ho'; by eapply IHarray).
    clear IHarray IHobject.
    induction Hos as [|e o' vs' os' He _ IH]; constructor.
    + apply (Hall e); [left|done].
    + apply IH. intros e' He'. apply Hall. by right.
  - change (map_fold _ (OK (rt.NewObject types.Dynamic)) m)
      with (setRuntimeProperties (rt.NewObject types.Dynamic) m).
    intros Hset.
    pose proof (setRuntimeProperties_type _ _ _ Hset) as Ht. simpl in Ht.
    unfold rt.Type_. rewrite Ht. split; [done|]. split; [done|].
    rewrite copyObjectProperty_eq. unfold rt.Type_. rewrite Ht. simpl.
    unfold copyObject.
    rewrite (proj2 (copyObjectProperties_captures None (rt.properties o) m));
      [done|].
    intros k. pose proof (setRuntimeProperties_lookup _ _ _ Hset k) as Hk.
    rewrite destinationNull_fresh in Hk. unfold rt.GetProperty in Hk.
    destruct (m !! k) as [e|] eqn:He.
    + destruct Hk as (val & Hval & ->). exists e. split; [|done].
      by eapply IHobject.
    + rewrite Hk. simpl. by rewrite lookup_empty.
Qed.

(** X1. Hydrating a fully resolved property value and capturing the runtime
    object obtained gives the value back, whatever the resource context of
    the capture. *)
Theorem hydrate_capture_value_roundtrip (v : PropertyValue) :
  hasUnknown v = false →
  ∃ o, createRuntimeProperty v = OK o ∧
       ∀ resobj, copyObjectProperty resobj o = OK v.
Proof.
  intros Hresolved.
  destruct (proj2 (createRuntimeProperty_total v) Hresolved) as [o Ho].
  exists o. split; [done|]. intros resobj.
  destruct (createRuntimeProperty_copy v o Ho) as (_ & Hplain & Hcopy).
  by rewrite copyObjectProperty_context.
Qed.

Lemma hydrate_capture_value_roundtrip_witness :
  ∃ o, createRuntimeProperty sampleValue = OK o ∧
       ∀ resobj, copyObjectProperty resobj o = OK sampleValue.
Proof. apply hydrate_capture_value_roundtrip. reflexivity. Defined.

Lemma copyObject_after_hydration (resobj : option addr) (o o' : rt.Object)
    (outputs before : PropertyMap) :
  copyObject resobj o = OK before →
  setRuntimeProperties o outputs = OK o' →
  copyObject resobj o' = OK (overlay o outputs before).
Proof.
  unfold copyObject. intros Hbefore Hset.
  apply copyObjectProperties_captures. intros k.
  apply copyObjectProperties_captures in Hbefore. specialize (Hbefore k).
  pose proof (setRuntimeProperties_lookup _ _ _ Hset k) as Hk.
  unfold rt.GetProperty in Hk. unfold overlay.
  assert (Hkept : rt.properties o' !! k = rt.properties o !! k →
            filter (λ kv, destinationNull o kv.1 = true) outputs !! k = None →
            match rt.properties o' !! k with
            | Some p => ∃ v, copyObjectProperty resobj p = OK v ∧
                             (filter (λ kv, destinationNull o kv.1 = true)
                                outputs ∪ before) !! k = Some v
            | None => (filter (λ kv, destinationNull o kv.1 = true)
                         outputs ∪ before) !! k = None
            end).
  { intros -> Hnone. by rewrite lookup_union_r. }
  destruct (outputs !! k) as [v|] eqn:Hv.
  - destruct (destinationNull o k) eqn:Hnull.
    + destruct Hk as (val & Hval & ->). exists v. split.
      * destruct (createRuntimeProperty_copy v val Hval) as (_ & Hplain & Hcopy).
        by rewrite copyObjectProperty_context.
      * apply lookup_union_Some_l. by apply map_lookup_filter_Some.
    + apply Hkept; [done|]. apply map_lookup_filter_None. right.
      intros v' Hv'. simpl. congruence.
  - apply Hkept; [done|]. apply map_lookup_filter_None. by left.
Qed.



Lemma overlay_fresh (o : rt.Object) (m : PropertyMap) :
  rt.properties o = ∅ → overlay o m ∅ = m.
Proof.
  intros Hempty. unfold overlay. rewrite (right_id_L ∅ (∪)).
  apply map_eq. intros k. destruct (m !! k) as [v|] eqn:Hv.
  - apply map_lookup_filter_Some. split; [done|]. simpl.
    unfold destinationNull, rt.PropertyObj. by rewrite Hempty, lookup_empty.
  - apply map_lookup_filter_None. by left.
Qed.

(** X3. Hydrating a fully resolved property map onto a resource object that
    has no property yet succeeds, and capturing the object then gives the
    map back. *)
Theorem hydrate_capture_map_roundtrip (r : Object) (m : PropertyMap) :
  rt.properties (Obj r) = ∅ →
  (∀ k v, m !! k = Some v → hasUnknown v = false) →
  ∃ r', SetProperties r (Some m) = OK r' ∧ CopyProperties r' = OK m.
Proof.
  intros Hempty Hresolved. unfold SetProperties. simpl.
  destruct (proj2 (setRuntimeProperties_total (Obj r) m)) as [o Ho].
  { intros k v Hk _. apply createRuntimeProperty_total. by eapply Hresolved. }
  rewrite Ho. simpl. eexists. split; [done|].
  unfold CopyProperties. simpl.
  pose proof (copyObject_after_hydration (Some (ptr r)) (obj r) o m ∅)
    as Hcapture.
  rewrite (overlay_fresh (obj r) m Hempty) in Hcapture.
  apply Hcapture; [|exact Ho]. unfold copyObject.
  apply copyObjectProperties_captures. intros k.
  unfold Obj in Hempty. by rewrite Hempty, !lookup_empty.
Qed.

Lemma hydrate_capture_map_roundtrip_witness :
  ∃ r', SetProperties freshResource (Some plannedServerInputs) = OK r' ∧
        CopyProperties r' = OK plannedServerInputs.
Proof.
  apply hydrate_capture_map_roundtrip; [reflexivity|].
  intros k v Hk. apply elem_of_map_to_list in Hk.
  vm_compute map_to_list in Hk. rewrite !elem_of_cons, elem_of_nil in Hk.
  destruct Hk as [[= -> ->]|[[= -> ->]|[]]]; reflexivity.
Defined.

Lemma setRuntimeProperties_value (obj obj' : rt.Object) (props : PropertyMap) :
  setRuntimeProperties obj props = OK obj' → rt.value obj' = rt.value obj.
Proof.
  unfold setRuntimeProperties. rewrite map_fold_foldr. intros Hset.
  by destruct (setRuntimeProperty_foldr _ _ _
                 (NoDup_fst_map_to_list props) Hset) as (_ & ? & _).
Qed.

Lemma Object_eq (o1 o2 : rt.Object) :
  rt.t o1 = rt.t o2 → rt.value o1 = rt.value o2 →
  rt.properties o1 = rt.properties o2 → o1 = o2.
Proof. destruct o1, o2. simpl. by intros -> -> ->. Qed.

(** X4. Hydration is idempotent: hydrating the same map again onto the
    object that a hydration returned succeeds and changes nothing. *)
Theorem hydration_idempotent (o o' : rt.Object) (m : PropertyMap) :
  setRuntimeProperties o m = OK o' → setRuntimeProperties o' m = OK o'.
Proof.
  intros Hset.
  pose proof (setRuntimeProperties_lookup _ _ _ Hset) as Hfirst.
  assert (Hwritten : ∀ k v, m !! k = Some v → destinationNull o' k = true →
            ∃ val, createRuntimeProperty v = OK val ∧
                   rt.properties o' !! k = Some val).
  { intros k v Hk Hnull. specialize (Hfirst k). rewrite Hk in Hfirst.
    destruct (destinationNull o k) eqn:Hnull0; [done|].
    rewrite (destinationNull_lookup o o' k Hfirst) in Hnull. congruence. }
  destruct (proj2 (setRuntimeProperties_total o' m)) as [o'' Hagain].
  { intros k v Hk Hnull. destruct (Hwritten k v Hk Hnull) as (val & ? & _).
    by exists val. }
  rewrite Hagain. f_equal. apply Object_eq.
  - apply (setRuntimeProperties_type _ _ _ Hagain).
  - apply (setRuntimeProperties_value _ _ _ Hagain).
  - apply map_eq. intros k.
    pose proof (setRuntimeProperties_lookup _ _ _ Hagain k) as Hsecond.
    unfold rt.GetProperty in Hsecond.
    destruct (m !! k) as [v|] eqn:Hk; [|done].
    destruct (destinationNull o' k) eqn:Hnull; [|done].
    destruct Hsecond as (val' & Hval' & ->).
    destruct (Hwritten k v Hk Hnull) as (val & Hval & ->). congruence.
Qed.

Lemma hydration_idempotent_witness :
  setRuntimeProperties halfSetHydrated incoming = OK halfSetHydrated.
Proof.
  apply (hydration_idempotent halfSet). vm_compute. reflexivity.
Defined.

(** X5. The result of hydration does not depend on the order in which the
    entries of the map are taken, which Go leaves open. *)
Theorem hydration_order_irrelevant (o : rt.Object) (props : PropertyMap)
    (l : list (string * PropertyValue)) :
  l ≡ₚ map_to_list props →
  foldr (uncurry (setRuntimeProperty createRuntimeProperty)) (OK o) l
  = setRuntimeProperties o props.
Proof. apply setRuntimeProperties_order. Qed.

Lemma hydration_order_irrelevant_witness :
  foldr (uncurry (setRuntimeProperty createRuntimeProperty)) (OK halfSet)
    (reverse (map_to_list incoming))
  = setRuntimeProperties halfSet incoming.
Proof. apply hydration_order_irrelevant. apply reverse_Permutation. Defined.

(** X6. A property value can be turned into a runtime object exactly when it
    holds no computed and no output value at any depth. *)
Theorem createRuntimeProperty_succeeds_iff_resolved (v : PropertyValue) :
  is_OK (createRuntimeProperty v) ↔ hasUnknown v = false.
Proof. apply createRuntimeProperty_total. Qed.

(** X7. Capturing a resource succeeds exactly when the copy of each of its
    properties does, and the captured map then has exactly the keys of the
    live object. *)
Theorem capture_succeeds_iff (r : Object) :
  (is_OK (CopyProperties r) ↔
   ∀ k p, rt.GetProperty (Obj r) k = Some p →
          is_OK (copyObjectProperty (Some (ptr r)) p)) ∧
  (∀ m, CopyProperties r = OK m → dom m = dom (rt.properties (Obj r))).
Proof.
  unfold CopyProperties, copyObject, rt.GetProperty. split; [split|].
  - intros [m Hm] k p Hp.
    pose proof (copyObjectProperties_lookup _ _ _ Hm k) as Hk.
    rewrite Hp in Hk. destruct Hk as (v & Hv & _). by exists v.
  - intros Hall. unfold copyObjectProperties, copyLoop.
    apply copyLoop_total. intros k Hk. apply elem_of_Stable in Hk as [p Hp].
    destruct (Hall k p Hp) as [v Hv]. exists v. by rewrite Hp, <- Hv.
  - intros m Hm. apply set_eq. intros k. rewrite !elem_of_dom.
    pose proof (copyObjectProperties_lookup _ _ _ Hm k) as Hk.
    destruct (rt.properties (Obj r) !! k) as [p|].
    + destruct Hk as (v & _ & ->). split; by eexists.
    + rewrite Hk. split; by intros [? [=]].
Qed.

Lemma capture_succeeds_iff_witness :
  dom selfReferringCaptured = dom (rt.properties (Obj selfReferring)).
Proof.
  apply (proj2 (capture_succeeds_iff selfReferring)).
  vm_compute. reflexivity.
Defined.

(** ** References to resources *)

(** X8. The capture of a reference to a resource reads nothing of the
    resource but its ID slot: two resource-typed objects with the same ID
    slot are captured alike, in any context, whatever else they hold; and
    what is captured is a string or a computed string. *)
Theorem resource_reference_reads_id_only (resobj1 resobj2 : option addr)
    (o1 o2 : rt.Object) :
  predef.IsResourceType (rt.Type_ o1) = true →
  predef.IsResourceType (rt.Type_ o2) = true →
  rt.GetProperty o1 IDProperty = rt.GetProperty o2 IDProperty →
  copyObjectProperty resobj1 o1 = copyObjectProperty resobj2 o2 ∧
  (∀ v, copyObjectProperty resobj1 o1 = OK v →
        (∃ id, v = NewStringProperty id) ∨
        v = MakeComputed (NewStringProperty "")).
Proof.
  intros Hres1 Hres2 Hid.
  rewrite !copyObjectProperty_resource by done.
  unfold copyResource, getIDObject, IsResourceObject.
  rewrite Hres1, Hres2, Hid. simpl. split; [done|]. intros v.
  destruct (rt.GetProperty o2 IDProperty) as [idobj|]; simpl;
    [|intros [= <-]; by right].
  destruct (rt.IsString idobj || rt.IsComputed idobj); simpl; [|done].
  destruct (rt.IsString idobj); [|intros [= <-]; by right].
  destruct (rt.StringValue idobj) as [id|]; simpl; [|done].
  intros [= <-]. left. by exists id.
Qed.

Lemma resource_reference_reads_id_only_witness :
  copyObjectProperty None (Obj freshResource)
  = copyObjectProperty (Some 1%positive) (Obj selfReferring).
Proof.
  apply (resource_reference_reads_id_only None (Some 1%positive)
           (Obj freshResource) (Obj selfReferring)); reflexivity.
Defined.


(** X9. Once [SetID] has given an ID to a resource whose ID was not set,
    every capture of a reference to that resource yields the ID as a
    string. *)
Theorem reference_after_SetID (target : Object) (id : string) :
  IsResourceObject (Obj target) = true →
  idUnset (Obj target) →
  ∃ target', SetID target id = OK target' ∧
             ∀ resobj, copyObjectProperty resobj (Obj target')
                       = OK (NewStringProperty id).
Proof.
  intros Hres Hunset. eexists. split; [by apply SetID_unset|].
  intros resobj.
  set (o1 := rt.SetProperty (rt.InitProperty (obj target) IDProperty)
               IDProperty (rt.NewStringObject id)).
  change (copyObjectProperty resobj o1 = OK (NewStringProperty id)).
  assert (Ht : rt.Type_ o1 = rt.Type_ (Obj target))
    by apply InitProperty_type.
  rewrite copyObjectProperty_resource by (by rewrite Ht).
  unfold copyResource, getIDObject, IsResourceObject. rewrite Ht.
  unfold IsResourceObject in Hres. rewrite Hres. simpl.
  unfold o1. by rewrite SetProperty_lookup.
Qed.

Lemma reference_after_SetID_witness :
  ∃ target', SetID freshResource "i-1" = OK target' ∧
             ∀ resobj, copyObjectProperty resobj (Obj target')
                       = OK (NewStringProperty "i-1").
Proof. apply reference_after_SetID; [reflexivity|exact I]. Defined.

(** ** [SetID] and [Update], then capture *)




Lemma SetID_OK (r r' : Object) (id : string) :
  SetID r id = OK r' →
  idUnset (Obj r) ∧
  r' = {| urn := urn r; ptr := ptr r;
          obj := rt.SetProperty (rt.InitProperty (obj r) IDProperty) IDProperty
                   (rt.NewStringObject id) |}.
Proof.
  intros Hset. assert (Hunset : idUnset (Obj r)).
  { revert Hset. unfold SetID, idUnset, Obj, rt.GetProperty, rt.PropertyObj.
    rewrite PropertyObj_InitProperty. simpl. unfold rt.PropertyObj.
    destruct (rt.properties (obj r) !! IDProperty) as [idobj|]; [|done].
    simpl. destruct (rt.IsNull idobj); [by left|].
    destruct (rt.IsComputed idobj); [by right|done]. }
  split; [done|]. rewrite (SetID_unset r id Hunset) in Hset. congruence.
Qed.

Lemma SetID_string_fails (r : Object) (id id' : string) :
  rt.GetProperty (obj r) IDProperty = Some (rt.NewStringObject id) →
  SetID r id' = InvariantViolation.
Proof.
  intros Hid. destruct (SetID r id') as [r'|] eqn:Hset; [|done].
  apply SetID_OK in Hset as [Hunset _].
  unfold idUnset, Obj in Hunset. rewrite Hid in Hunset.
  by destruct Hunset.
Qed.

(** What a successful [Update] has gone through. *)
Lemma Update_OK (r r' : Object) (id : string) (outputs : option PropertyMap)
    (st : State) :
  Update r id outputs = OK (r', st) →
  HasURN r = true ∧ idUnset (Obj r) ∧
  ∃ inputs m,
    CopyProperties r = OK inputs ∧ outputs = Some m ∧
    setRuntimeProperties
      (rt.SetProperty (rt.InitProperty (obj r) IDProperty) IDProperty
         (rt.NewStringObject id)) m = OK (obj r') ∧
    urn r' = urn r ∧ ptr r' = ptr r ∧
    st = NewState (Type_ r) (URN r) id inputs outputs.
Proof.
  unfold Update. destruct (HasURN r) eqn:Hurn; simpl; [|done].
  destruct (CopyProperties r) as [inputs|] eqn:Hinputs; simpl; [|done].
  destruct (SetID r id) as [r1|] eqn:Hid; simpl; [|done].
  apply SetID_OK in Hid as [Hunset ->].
  unfold SetProperties, Obj. simpl.
  destruct outputs as [m|]; simpl; [|done].
  destruct (setRuntimeProperties _ m) as [o2|] eqn:Hset; simpl; [|done].
  intros [= <- <-]. split; [done|]. split; [done|].
  exists inputs, m. simpl. repeat split; try done.
  unfold Type_, URN, rt.Type_. simpl.
  rewrite (setRuntimeProperties_type _ _ _ Hset). simpl.
  by rewrite InitProperty_type.
Qed.

Lemma Update_ID_slot (r r' : Object) (id : string)
    (outputs : option PropertyMap) (st : State) :
  Update r id outputs = OK (r', st) →
  rt.GetProperty (obj r') IDProperty = Some (rt.NewStringObject id).
Proof.
  intros Hupdate.
  apply Update_OK in Hupdate as (_ & _ & inputs & m & _ & _ & Hset & _).
  pose proof (setRuntimeProperties_lookup _ _ _ Hset IDProperty) as Hid.
  rewrite SetID_destination, decide_True in Hid by done.
  rewrite SetProperty_lookup in Hid. by destruct (m !! IDProperty).
Qed.

(** X11. [Update] succeeds at most once on a resource object: after an
    [Update] that returned a state, any further [Update] is an invariant
    violation, whatever its ID and outputs. *)
Theorem Update_at_most_once (r r' : Object) (id : string)
    (outputs : option PropertyMap) (st : State) :
  Update r id outputs = OK (r', st) →
  ∀ id' outputs', Update r' id' outputs' = InvariantViolation.
Proof.
  intros Hupdate id' outputs'.
  pose proof (SetID_string_fails r' id id' (Update_ID_slot _ _ _ _ _ Hupdate))
    as Hfail.
  unfold Update. destruct (contract.Assert (HasURN r')); simpl; [|done].
  destruct (CopyProperties r'); simpl; [|done]. by rewrite Hfail.
Qed.

Lemma Update_at_most_once_witness :
  ∃ r' st, Update plannedServer "i-1" (Some incoming) = OK (r', st) ∧
           Update r' "i-2" (Some incoming) = InvariantViolation.
Proof.
  destruct (Update plannedServer "i-1" (Some incoming)) as [[r' st]|] eqn:Hfirst;
    [|by vm_compute in Hfirst].
  exists r', st. split; [reflexivity|].
  apply (Update_at_most_once plannedServer r' "i-1" (Some incoming) st Hfirst).
Defined.

(** X12. [Update] returns a state only if the resource has a URN, its ID is
    not set, its capture succeeds, and the outputs are not nil and hold a
    fully resolved value for every unset property they name other than the
    ID; the state then holds that capture as inputs, and the resource keeps
    its URN. *)
Theorem Update_requirements (r r' : Object) (id : string)
    (outputs : option PropertyMap) (st : State) :
  Update r id outputs = OK (r', st) →
  HasURN r = true ∧ idUnset (Obj r) ∧
  CopyProperties r = OK (st_inputs st) ∧
  (∃ m, outputs = Some m ∧
        ∀ k v, m !! k = Some v → k ≠ IDProperty →
               destinationNull (Obj r) k = true → hasUnknown v = false) ∧
  st = NewState (Type_ r) (URN r) id (st_inputs st) outputs ∧
  URN r' = URN r.
Proof.
  intros Hupdate.
  apply Update_OK in Hupdate
    as (Hurn & Hunset & inputs & m & Hinputs & -> & Hset & Hurn' & _ & ->).
  simpl. repeat split; try done.
  exists m. split; [done|]. intros k v Hk Hne Hnull.
  apply createRuntimeProperty_total.
  apply (proj1 (setRuntimeProperties_total _ m) (ex_intro _ _ Hset) k v Hk).
  rewrite SetID_destination. by rewrite decide_False.
Qed.

Lemma Update_requirements_witness :
  ∃ m, Some incoming = Some m ∧
       ∀ k v, m !! k = Some v → k ≠ IDProperty →
              destinationNull (Obj plannedServer) k = true →
              hasUnknown v = false.
Proof.
  destruct (Update plannedServer "i-1" (Some incoming)) as [[r' st]|] eqn:Hfirst;
    [|by vm_compute in Hfirst].
  apply (Update_requirements plannedServer r' "i-1" (Some incoming) st Hfirst).
Defined.



(** ** Stack import, further *)

(** X14. The command refuses the snapshot exactly when [--force] is not
    given and some resource of the snapshot belongs to another stack; in
    particular an import that was attempted without [--force] was of a
    snapshot whose resources all belong to the target stack. *)
Theorem import_refused_iff (Stack : string → string)
    (importDeployment : stack_import.Snapshot → option string) (force : bool)
    (stackName : string) (snapshot : stack_import.Snapshot) :
  (∃ errors,
     (stack_import.run Stack importDeployment force stackName snapshot).2
     = stack_import.Failed errors) ↔
  force = false ∧
  Exists (λ res, Stack (stack_import.res_URN res) ≠ stackName)
    (stack_import.Resources snapshot).
Proof.
  rewrite run_cases. simpl.
  assert (Hbad : mismatched Stack stackName snapshot ≠ [] ↔
            Exists (λ res, Stack (stack_import.res_URN res) ≠ stackName)
              (stack_import.Resources snapshot)).
  { unfold mismatched.
    induction (stack_import.Resources snapshot) as [|res l IH]; simpl.
    - split; [done|]. by intros ?%Exists_nil.
    - rewrite Exists_cons. unfold stack_import.mismatch at 1.
      case_bool_decide; [|tauto]. split; [by left|done]. }
  rewrite <- Hbad. destruct force; simpl.
  - split; [|by intros [? _]].
    intros [errors Herr]. by destruct importDeployment.
  - destruct (mismatched Stack stackName snapshot) as [|res bad]; simpl.
    + split; [|by intros [_ ?]].
      intros [errors Herr]. by destruct importDeployment.
    + split; [done|]. intros _. by eexists.
Qed.

Lemma cleared_idempotent (snapshot : stack_import.Snapshot) :
  cleared (cleared snapshot) = cleared snapshot.
Proof. done. Qed.

(** X15. Running the command on the snapshot it would import, that is on
    the snapshot without its pending operations, gives the same outcome and
    the same warnings but those about pending operations. *)
Theorem import_of_cleared_snapshot (Stack : string → string)
    (importDeployment : stack_import.Snapshot → option string) (force : bool)
    (stackName : string) (snapshot : stack_import.Snapshot) :
  let first := stack_import.run Stack importDeployment force stackName snapshot in
  let again :=
    stack_import.run Stack importDeployment force stackName (cleared snapshot) in
  again.2 = first.2 ∧
  first.1 = again.1 ++
    match first.2 with
    | stack_import.Failed _ => []
    | _ => stack_import.pendingMessage
             <$> stack_import.PendingOperations snapshot
    end.
Proof.
  simpl. rewrite !run_cases. simpl.
  change (mismatched Stack stackName (cleared snapshot))
    with (mismatched Stack stackName snapshot).
  rewrite cleared_idempotent. destruct force; simpl.
  - rewrite app_nil_r. split; [done|].
    by destruct (importDeployment (cleared snapshot)).
  - destruct (mismatched Stack stackName snapshot); simpl; [|done].
    split; [done|]. by destruct (importDeployment (cleared snapshot)).
Qed.

(** ** The [config] command *)

(** X16. Setting a configuration value saves the environment with the value
    stored under the key, prints nothing and does so whether or not
    [--unset] is given and whatever arguments follow the value; reading the
    key in the saved environment then prints that value, without saving. *)
Theorem config_set_then_get (unset : bool) (e : env_config.Env)
    (key value : string) (more : list string) :
  let set := env_config.run unset e (key :: value :: more) in
  let get := env_config.run false (env_config.env set) [key] in
  env_config.saved set = Some (env_config.env set) ∧
  env_config.Config (env_config.env set)
    = Some (<[key := value]> (default ∅ (env_config.Config e))) ∧
  env_config.stdout set = [] ∧ env_config.exitError set = None ∧
  env_config.stdout get
    = [{| env_config.format := "%v\n"; env_config.arguments := [value] |}] ∧
  env_config.exitError get = None ∧ env_config.saved get = None ∧
  env_config.env get = env_config.env set.
Proof. simpl. rewrite lookup_insert_eq. done. Qed.

(** X17. Unsetting a key saves the environment without the key and never
    fails: when the key was not there the configuration is saved as it was;
    reading the key in the saved environment then exits with the error that
    names the key and the environment. *)
Theorem config_unset_then_get (e : env_config.Env) (key : string) :
  let unset := env_config.run true e [key] in
  let get := env_config.run false (env_config.env unset) [key] in
  env_config.saved unset = Some (env_config.env unset) ∧
  env_config.Config (env_config.env unset)
    = Some (delete key (default ∅ (env_config.Config e))) ∧
  (default ∅ (env_config.Config e) !! key = None →
   env_config.Config (env_config.env unset)
     = Some (default ∅ (env_config.Config e))) ∧
  env_config.stdout unset = [] ∧ env_config.exitError unset = None ∧
  env_config.exitError get
    = Some {| env_config.format :=
                "configuration key '%v' not found for environment '%v'";
              env_config.arguments := [key; env_config.Name e] |} ∧
  env_config.stdout get = [] ∧ env_config.saved get = None.
Proof.
  simpl. rewrite lookup_delete_eq. repeat split.
  intros Hmissing. by rewrite delete_id.
Qed.

Lemma config_unset_then_get_witness :
  env_config.Config (env_config.env (env_config.run true sampleEnv ["app:name"]))
  = env_config.Config sampleEnv.
Proof.
  apply (config_unset_then_get sampleEnv "app:name"). vm_compute. reflexivity.
Defined.

(** X18. Setting, unsetting or reading one key leaves every other key as it
    was: reading another key afterwards prints or fails as it did before. *)
Theorem config_other_keys_kept (unset : bool) (e : env_config.Env)
    (key key' : string) (values : list string) :
  key ≠ key' →
  let e' := env_config.env (env_config.run unset e (key :: values)) in
  env_config.stdout (env_config.run false e' [key'])
    = env_config.stdout (env_config.run false e [key']) ∧
  env_config.exitError (env_config.run false e' [key'])
    = env_config.exitError (env_config.run false e [key']).
Proof.
  intros Hne. simpl.
  destruct values as [|value more]; [destruct unset|]; simpl.
  - rewrite lookup_delete_ne by done. by destruct (_ !! key').
  - destruct (default ∅ (env_config.Config e) !! key) eqn:Hkey; simpl;
      by destruct (_ !! key').
  - rewrite lookup_insert_ne by done. by destruct (_ !! key').
Qed.

Lemma config_other_keys_kept_witness :
  env_config.stdout
    (env_config.run false
       (env_config.env (env_config.run true sampleEnv ["app:replicas"]))
       ["aws:region"])
  = env_config.stdout (env_config.run false sampleEnv ["aws:region"]).
Proof.
  apply (config_other_keys_kept true sampleEnv "app:replicas" "aws:region" []).
  discriminate.
Defined.

Lemma string_le_total : Total rt.string_le.
Proof. intros a b. apply String.leb_total. Qed.

Lemma Stable_sorted {A} (m : gmap string A) :
  Sorted rt.string_le (rt.Stable m) ∧ NoDup (rt.Stable m).
Proof.
  unfold rt.Stable. split.
  - apply (@Sorted_merge_sort _ rt.string_le _ string_le_total).
  - rewrite merge_sort_Permutation. apply NoDup_fst_map_to_list.
Qed.

(** X19. Without arguments the command changes and saves nothing.  It prints
    nothing at all when the environment has no configuration map;
    otherwise it prints the header and then one row for each key, with the
    value stored under it, the keys in sorted order and each once. *)
Theorem config_listing (unset : bool) (e : env_config.Env) :
  let r := env_config.run unset e [] in
  env_config.env r = e ∧ env_config.saved r = None ∧
  env_config.exitError r = None ∧
  match env_config.Config e with
  | None => env_config.stdout r = []
  | Some config =>
      ∃ keys,
        env_config.stdout r
        = {| env_config.format := env_config.rowFormat;
             env_config.arguments := ["KEY"; "VALUE"] |}
          :: ((λ key, {| env_config.format := env_config.rowFormat;
                         env_config.arguments := [key; config !!! key] |})
                <$> keys) ∧
        Sorted rt.string_le keys ∧ NoDup keys ∧
        (∀ key, key ∈ keys ↔ is_Some (config !! key)) ∧
        (∀ key value, config !! key = Some value → config !!! key = value)
  end.
Proof.
  simpl. destruct (env_config.Config e) as [config|] eqn:Hconfig; simpl;
    [|done].
  repeat split. exists (env_config.StableConfigKeys config).
  unfold env_config.StableConfigKeys.
  destruct (Stable_sorted config) as [Hsorted Hdup].
  repeat split; try done.
  - by intros ?%elem_of_Stable.
  - by intros ?%elem_of_Stable.
  - intros key value Hkey. by apply lookup_total_correct.
Qed.

(** ** Outputs in a captured map *)

(** X20. An output in the capture of a resource always stands for a
    computed top-level property of the resource that is self-derived: its
    computation has no free expression and the resource itself as its one
    source; and it wraps the zero value of the element kind. *)
Theorem captured_output_is_self_derived (r : Object) (m : PropertyMap)
    (k : string) (z : PropertyValue) :
  CopyProperties r = OK m →
  m !! k = Some (MakeOutput z) →
  ∃ p elem comp,
    rt.GetProperty (Obj r) k = Some p ∧
    rt.Type_ p = symbols.ComputedType elem ∧
    rt.ComputedValue p = OK comp ∧
    selfDerived (Some (ptr r)) comp ∧
    zeroValue elem = Some z.
Proof.
  unfold CopyProperties, copyObject, rt.GetProperty. intros Hm Hk.
  pose proof (copyObjectProperties_lookup _ _ _ Hm k) as Hlook.
  destruct (rt.properties (Obj r) !! k) as [p|]; [|congruence].
  destruct Hlook as (v & Hv & Hk'). assert (v = MakeOutput z) as -> by congruence.
  destruct (symbols.Computed (rt.Type_ p)) eqn:Hcomp.
  - destruct (rt.Type_ p) as [| | | |elem| |] eqn:Ht; try done.
    rewrite (copyObjectProperty_computed _ _ _ Ht) in Hv.
    apply copyComputed_OK in Hv as (comp & zero & Hvalue & Hzero & Hout).
    exists p, elem, comp.
    destruct (isOutput (Some (ptr r)) comp) eqn:Hself; [|done].
    injection Hout as ->. apply isOutput_selfDerived in Hself. done.
  - rewrite copyObjectProperty_context in Hv by done.
    by apply copyObjectProperty_nil_no_output in Hv.
Qed.

Lemma captured_output_is_self_derived_witness :
  ∃ p elem comp,
    rt.GetProperty (Obj selfReferring) "dns" = Some p ∧
    rt.Type_ p = symbols.ComputedType elem ∧
    rt.ComputedValue p = OK comp ∧
    selfDerived (Some (ptr selfReferring)) comp ∧
    zeroValue elem = Some (NewStringProperty "").
Proof.
  apply (captured_output_is_self_derived selfReferring selfReferringCaptured).
  - vm_compute. reflexivity.
  - vm_compute. reflexivity.
Defined.

Lemma config_listing_witness :
  ∃ keys,
    env_config.stdout (env_config.run false sampleEnv [])
    = {| env_config.format := env_config.rowFormat;
         env_config.arguments := ["KEY"; "VALUE"] |}
      :: ((λ key, {| env_config.format := env_config.rowFormat;
                     env_config.arguments :=
                       [key; ({[ "aws:region" := "us-west-2";
                                 "app:replicas" := "3" ]}
                                : gmap string string) !!! key] |})
            <$> keys) ∧
    NoDup keys ∧ "aws:region" ∈ keys.
Proof.
  destruct (config_listing false sampleEnv)
    as (_ & _ & _ & keys & Hout & _ & Hdup & Hkeys & _).
  exists keys. split; [exact Hout|]. split; [exact Hdup|].
  apply Hkeys. exists "us-west-2". vm_compute. reflexivity.
Defined.
